(** * Refocus real-time subsystem: subscription lifecycle

    A shallow embedding of [config.js] (the [ipWhitelist] settings) and of
    [realtime/setupSocketIO.js] (connection gate, per-perspective counters
    in Redis, namespace set-up and teardown, start-up reconciliation),
    together with the properties of the specification that concern them.

    Promise chains are embedded as programs of a small free monad whose
    operations are the asynchronous requests the source issues (Redis,
    session store, database) and the synchronous effects it performs
    (socket.io calls).  One process is a pool of pending chains served by a
    single cooperative loop: a scheduler step completes one pending request
    and runs its callback up to the next request.

    Further modules embed [config/redisConfig.js] (the Redis instance of
    each use), [db/helpers/aspectUtils.js] (validation of status ranges)
    and [clock/scheduledJobs/jobCleanup.js] (removal of completed jobs). *)

From stdpp Require Import gmap strings list.
From Stdlib Require Import ZArith QArith.
From Stdlib Require DecimalFacts DecimalNat.
From Stdlib Require Ascii String.
Import Stdlib.Strings.Ascii.

Set Warnings "-register-all,-clear-no-such-hyp".

Local Open Scope string_scope.
Local Open Scope Z_scope.
Local Open Scope list_scope.

(** ** JavaScript values and truthiness *)

Inductive jsval : Type :=
| JUndefined
| JNum (n : Z)
| JStr (s : string)
| JArr (l : list jsval).

(** [!!v] for the values above: [undefined], [0] and the empty string are
    falsy, arrays are always truthy. *)
Definition truthy (v : jsval) : bool :=
  match v with
  | JUndefined => false
  | JNum n => negb (n =? 0)
  | JStr s => negb (String.eqb s "")
  | JArr _ => true
  end.

(** A header, cookie or query field: absent ([undefined]) or a string. *)
Definition truthy_str (o : option string) : bool :=
  match o with
  | Some s => negb (String.eqb s "")
  | None => false
  end.

Definition is_array (v : jsval) : bool :=
  match v with JArr _ => true | _ => false end.

(** ** [config.js] *)

Module Config.

(** [process.env]. *)
Definition process_env := string -> option string.

(** [a || b] on an environment variable: the empty string is falsy. *)
Definition or_default (a : option string) (b : string) : string :=
  match a with
  | Some s => if String.eqb s "" then b else s
  | None => b
  end.

(** [Array.prototype.push]: mutates the array in place and returns its new
    length.  The array is threaded explicitly: first component is the
    array after the call. *)
Definition push (arr : list jsval) (x : jsval) : list jsval * jsval :=
  (arr ++ [x], JNum (Z.of_nat (length (arr ++ [x])))).

(** The fields of one entry of [environment] that the real-time code
    reads. *)
Record env_settings : Type := {
  host : option string;
  ipWhitelist : jsval;
}.

Record exports : Type := {
  nodeEnv : string;
  environment : string -> option env_settings;
}.

Section Module_body.
(** [configUtil.parseIPlist] lives in [config/configUtil.js]; it turns
    the bracketed string into an array of address pairs. *)
Variable parseIPlist : string -> list jsval.
Variable pe : process_env.

Definition nodeEnv_ : string := or_default (pe "NODE_ENV") "development".

(** By default, allow all IP's. *)
Definition ipWhitelist_ : string :=
  or_default (pe "IP_WHITELIST") "[[0.0.0.0,255.255.255.255]]".

(** [const iplist = configUtil.parseIPlist(ipWhitelist)]: the array as
    it is before [module.exports] is evaluated. *)
Definition iplist : list jsval := parseIPlist ipWhitelist_.

(** Evaluation of the [environment] object literal.  [build] comes
    first and calls [iplist.push], which changes the one array object
    that [development], [production] and [testWhitelistLocalhost]
    reference; these are read by other modules after the literal has
    been evaluated, so they see the array after the push. *)
Definition module_exports : exports :=
  let '(iplist1, pushed) := push iplist (JStr "::ffff:127.0.0.1") in
  {| nodeEnv := nodeEnv_;
     environment := fun name =>
       if String.eqb name "build" then
         Some {| host := Some "127.0.0.1"; ipWhitelist := pushed |}
       else if String.eqb name "development" then
         Some {| host := Some "127.0.0.1"; ipWhitelist := JArr iplist1 |}
       else if String.eqb name "production" then
         Some {| host := None; ipWhitelist := JArr iplist1 |}
       else if String.eqb name "testWhitelistLocalhost" then
         Some {| host := Some "127.0.0.1"; ipWhitelist := JArr iplist1 |}
       else if String.eqb name "testBlockAllhosts" then
         Some {| host := Some "127.0.0.1"; ipWhitelist := JArr [JStr ""] |}
       else None |}.
End Module_body.

End Config.

(** ** [realtime/setupSocketIO.js]: constants *)

Definition ONE : Z := 1.
Definition activePerspPrefix : string := "activePersp:".

(** *** [SID_REX]

    The regular expression reads: the text [connect], any one character,
    the text [sid=s%3A], a captured group of characters other than a dot
    (as many as possible), and a dot.  The dot of [connect.sid] is not
    escaped in the source, so it stands for any character but a line
    terminator.  The group cannot contain a dot, so at a given start there
    is at most one way to match. *)

Definition is_line_terminator (c : ascii) : bool :=
  Ascii.eqb c "010"%char || Ascii.eqb c "013"%char.

Fixpoint strip_prefix (p s : string) : option string :=
  match p, s with
  | EmptyString, _ => Some s
  | String a p', String b s' => if Ascii.eqb a b then strip_prefix p' s' else None
  | String _ _, EmptyString => None
  end.

(** The captured group and the dot that ends it, at the start of [s]. *)
Fixpoint group_then_dot (s : string) : option string :=
  match s with
  | EmptyString => None
  | String c r =>
      if Ascii.eqb c "."%char then Some EmptyString
      else match group_then_dot r with
           | Some g => Some (String c g)
           | None => None
           end
  end.

(** A match that starts at the first character of [s]: the match array
    [[whole; group1]]. *)
Definition SID_REX_at (s : string) : option (list string) :=
  match strip_prefix "connect" s with
  | Some (String c r) =>
      if is_line_terminator c then None
      else match strip_prefix "sid=s%3A" r with
           | Some r' =>
               match group_then_dot r' with
               | Some g => Some ["connect" +:+ String c "sid=s%3A" +:+ g +:+ "."; g]
               | None => None
               end
           | None => None
           end
  | _ => None
  end.

(** [SID_REX.exec(s)]: the leftmost match, [None] for JavaScript's [null]. *)
Fixpoint SID_REX_exec (s : string) : option (list string) :=
  match SID_REX_at s with
  | Some m => Some m
  | None =>
      match s with
      | EmptyString => None
      | String _ r => SID_REX_exec r
      end
  end.

(** [key.split(':')]. *)
Fixpoint split_colon_aux (cur : string) (s : string) : list string :=
  match s with
  | EmptyString => [String.rev cur]
  | String c r =>
      if Ascii.eqb c ":"%char then String.rev cur :: split_colon_aux EmptyString r
      else split_colon_aux (String c cur) r
  end.

Definition split_colon (s : string) : list string := split_colon_aux EmptyString s.

(** *** The cookie contract in the words of the specification

    The cookie 'must contain a field of the form
    connect.sid=s%3A<id>.<signature>': somewhere in the header stands the
    text [connect.sid=s%3A], with its dot, then an id, a dot and a
    signature.  This predicate is what [SID_REX] is compared with; the id
    is any run of characters other than a dot, and id and signature may be
    empty, which is the reading that accepts most. *)
Definition spec_field_at (s : string) : bool :=
  match strip_prefix "connect.sid=s%3A" s with
  | Some r => match group_then_dot r with Some _ => true | None => false end
  | None => false
  end.

Fixpoint spec_cookie_form (s : string) : bool :=
  spec_field_at s
  || match s with
     | EmptyString => false
     | String _ r => spec_cookie_form r
     end.


(** ** Collaborators and data *)

(** A row of the Perspective table, as far as the real-time code reads it. *)
Record Persp : Type := { persp_name : string }.

(** What the session store hands to the callback of [redisStore.get]: an
    error, or the session data, of which only
    [sessionData.passport.user.name] is read ([None] when the data or one
    of the nested fields is missing). *)
Inductive SessionReply : Type :=
| SessionErr
| SessionData (user_name : option string).

Record Handshake : Type := {
  cookie : option string;            (* headers.cookie *)
  x_forwarded_for : option string;   (* headers['x-forwarded-for'] *)
  address : option string;           (* handshake.address *)
  query_p : option string;           (* handshake.query.p *)
}.

Record Socket : Type := { id : string; handshake : Handshake }.

(** The [toLog] object stored under the socket id (its [starttime] is a
    clock reading and is left out). *)
Record LogInfo : Type := {
  log_ipAddress : option string;
  log_user : string;
  log_perspective : option string;
}.

(** Feature toggles, configuration and the collaborators whose code is
    outside this module. *)
Record Env : Type := {
  requireAccessToken : bool;
  logEnabled : bool;                         (* enableRealtimeActivityLogs *)
  ipWhitelist : jsval;    (* conf.environment[conf.nodeEnv].ipWhitelist *)
  (** [rtUtils.isIpWhitelisted] of [realtime/utils.js]; [false] stands for
      the error it throws. *)
  isIpWhitelisted : option string -> jsval -> bool;
  session_store : string -> SessionReply;
  (** [perspective.findOne({ where: { name } })]; the name is [None] when
      the query carried no [p]. *)
  perspective_table : option string -> option Persp;
}.

(** ** Promise chains *)

(** The operations up to [redis_del] are asynchronous: the chain waits for
    the reply and the continuation is the [.then] callback.  The others run
    synchronously inside a callback.  [Throw] is a rejected promise. *)
Inductive prog : Type :=
| Ret
| Throw
| getAsync (key : string) (k : option Z -> prog)
| incrAsync (key : string) (k : Z -> prog)
| decrAsync (key : string) (k : Z -> prog)
| delAsync (key : string) (k : Z -> prog)
| keysAsync (prefix : string) (k : list string -> prog)
| redisStore_get (sid : string) (k : SessionReply -> prog)
| findOne (name : option string) (k : option Persp -> prog)
| redis_get (sockid : string) (k : option LogInfo -> prog)
| redis_del (sockid : string) (k : Z -> prog)
| redis_set (sockid : string) (v : LogInfo) (k : prog)
| initializeNamespace (p : Persp) (k : prog)
| deleteNamespace (p : Persp) (k : prog)
| socket_disconnect (s : string) (k : prog)
| socket_on_disconnect (s : string) (h : prog) (k : prog)
| printActivityLogString (d : LogInfo) (k : prog)
| fork (p : prog) (k : prog).

(** [p.catch(h)]: errors of chains that [p] starts without returning them
    ([fork]) and of registered listeners are not caught. *)
Fixpoint try_catch (p : prog) (h : prog) : prog :=
  match p with
  | Ret => Ret
  | Throw => h
  | getAsync key k => getAsync key (fun r => try_catch (k r) h)
  | incrAsync key k => incrAsync key (fun r => try_catch (k r) h)
  | decrAsync key k => decrAsync key (fun r => try_catch (k r) h)
  | delAsync key k => delAsync key (fun r => try_catch (k r) h)
  | keysAsync pre k => keysAsync pre (fun r => try_catch (k r) h)
  | redisStore_get sid k => redisStore_get sid (fun r => try_catch (k r) h)
  | findOne name k => findOne name (fun r => try_catch (k r) h)
  | redis_get s k => redis_get s (fun r => try_catch (k r) h)
  | redis_del s k => redis_del s (fun r => try_catch (k r) h)
  | redis_set s v k => redis_set s v (try_catch k h)
  | initializeNamespace p k => initializeNamespace p (try_catch k h)
  | deleteNamespace p k => deleteNamespace p (try_catch k h)
  | socket_disconnect s k => socket_disconnect s (try_catch k h)
  | socket_on_disconnect s l k => socket_on_disconnect s l (try_catch k h)
  | printActivityLogString d k => printActivityLogString d (try_catch k h)
  | fork q k => fork q (try_catch k h)
  end.

(** ** State of one process and of the stores it talks to *)

Inductive event : Type :=
| EvDisconnect (s : string)
| EvSessionGet (sid : string)
| EvGet (key : string) (reply : option Z)
| EvIncr (key : string) (reply : Z)
| EvDecr (key : string) (reply : Z)
| EvDel (key : string) (reply : Z)
| EvKeys (prefix : string)
| EvFindOne (name : option string) (found : bool)
| EvEnsure (topic : string) (handle : nat) (created : bool)
| EvRetire (topic : string) (removed : bool)
| EvLogSet (s : string)
| EvLogGet (s : string)
| EvLogDel (s : string)
| EvPrint (d : LogInfo)
| EvUnhandled.

Record SocketState : Type := {
  connected : bool;
  listeners : list prog;     (* 'disconnect' listeners, oldest first *)
}.

(** [redis] holds the integer values of the [activePersp:] keys and
    [rtlog] the entries stored under socket ids; both live in the same
    Redis instance, socket ids never start with the prefix.  [nsps] is
    [io.nsps], the namespaces of this process; a handle is the number of
    namespaces created before it. *)
Record State : Type := {
  redis : gmap string Z;
  rtlog : gmap string LogInfo;
  nsps : gmap string nat;
  nsp_count : nat;
  sockets : gmap string SocketState;
  trace : list event;
}.

Definition emit (e : event) (st : State) : State :=
  {| redis := redis st; rtlog := rtlog st; nsps := nsps st;
     nsp_count := nsp_count st; sockets := sockets st;
     trace := trace st ++ [e] |}.

Definition with_redis (r : gmap string Z) (st : State) : State :=
  {| redis := r; rtlog := rtlog st; nsps := nsps st;
     nsp_count := nsp_count st; sockets := sockets st; trace := trace st |}.

Definition with_rtlog (l : gmap string LogInfo) (st : State) : State :=
  {| redis := redis st; rtlog := l; nsps := nsps st;
     nsp_count := nsp_count st; sockets := sockets st; trace := trace st |}.

Definition with_nsps (n : gmap string nat) (c : nat) (st : State) : State :=
  {| redis := redis st; rtlog := rtlog st; nsps := n;
     nsp_count := c; sockets := sockets st; trace := trace st |}.

Definition with_sockets (s : gmap string SocketState) (st : State) : State :=
  {| redis := redis st; rtlog := rtlog st; nsps := nsps st;
     nsp_count := nsp_count st; sockets := s; trace := trace st |}.

(** *** Redis commands on the counter keys *)

(** A reply to GET is [null] or the decimal string of the value; the
    comparisons and negations the source applies to it are given below on
    [option Z]. *)
Definition do_get (key : string) (st : State) : option Z * State :=
  (redis st !! key, emit (EvGet key (redis st !! key)) st).

(** INCR creates the key at 1 when it is absent. *)
Definition do_incr (key : string) (st : State) : Z * State :=
  let v := default 0 (redis st !! key) + 1 in
  (v, emit (EvIncr key v) (with_redis (<[key := v]> (redis st)) st)).

Definition do_decr (key : string) (st : State) : Z * State :=
  let v := default 0 (redis st !! key) - 1 in
  (v, emit (EvDecr key v) (with_redis (<[key := v]> (redis st)) st)).

(** DEL replies with the number of keys removed. *)
Definition do_del (key : string) (st : State) : Z * State :=
  let n := match redis st !! key with Some _ => 1 | None => 0 end in
  (n, emit (EvDel key n) (with_redis (delete key (redis st)) st)).

(** KEYS with the pattern [prefix*]. *)
Definition do_keys (prefix : string) (st : State) : list string * State :=
  (List.filter (String.prefix prefix) (map fst (map_to_list (redis st))),
   emit (EvKeys prefix) st).

(** JavaScript's [!reply] on a GET reply: a decimal string is never empty,
    so only [null] is falsy; in particular the reply ["0"] is truthy. *)
Definition js_not_reply (r : option Z) : bool :=
  match r with Some _ => false | None => true end.

(** JavaScript's [reply <= n]: [null] converts to 0, a decimal string to
    its number. *)
Definition js_reply_le (r : option Z) (n : Z) : bool := default 0 r <=? n.

(** *** Namespaces *)

(** Modelled from the spec: [rtUtils.initializeNamespace] of
    [realtime/utils.js] is the spec's [ensure]: if a channel already exists
    locally for the topic its handle is returned, otherwise the channel is
    constructed, registered and its handle returned. *)
Definition do_ensure (p : Persp) (st : State) : State :=
  match nsps st !! persp_name p with
  | Some h => emit (EvEnsure (persp_name p) h false) st
  | None =>
      emit (EvEnsure (persp_name p) (nsp_count st) true)
        (with_nsps (<[persp_name p := nsp_count st]> (nsps st))
           (S (nsp_count st)) st)
  end.

(** Modelled from the spec: [rtUtils.deleteNamespace] of
    [realtime/utils.js] is the spec's [retire]: it discards the local
    channel of the topic if present and does nothing if absent. *)
Definition do_retire (p : Persp) (st : State) : State :=
  match nsps st !! persp_name p with
  | Some _ =>
      emit (EvRetire (persp_name p) true)
        (with_nsps (delete (persp_name p) (nsps st)) (nsp_count st) st)
  | None => emit (EvRetire (persp_name p) false) st
  end.

(** *** Sockets *)

(** The socket closes (by [socket.disconnect()] or from the client side):
    nothing happens if it is closed already; otherwise its 'disconnect'
    listeners are started.  A listener only issues requests, so it is handed
    to the loop as a chain that has not run yet. *)
Definition do_disconnect (s : string) (st : State) : State * list prog :=
  match sockets st !! s with
  | Some ss =>
      if connected ss then
        (emit (EvDisconnect s)
           (with_sockets
              (<[s := {| connected := false; listeners := listeners ss |}]>
                 (sockets st)) st),
         listeners ss)
      else (st, [])
  | None => (st, [])
  end.

(** [socket.on('disconnect', h)]. *)
Definition do_on_disconnect (s : string) (h : prog) (st : State) : State :=
  match sockets st !! s with
  | Some ss =>
      with_sockets
        (<[s := {| connected := connected ss;
                   listeners := listeners ss ++ [h] |}]> (sockets st)) st
  | None => st
  end.

(** ** The event loop *)

(** Runs a callback up to the requests it issues: the synchronous effects
    are applied in order, and the result lists the chains left waiting for
    a reply.  An error that reaches the end of a chain is an unhandled
    rejection. *)
Fixpoint settle (p : prog) (st : State) : State * list prog :=
  match p with
  | Ret => (st, [])
  | Throw => (emit EvUnhandled st, [])
  | redis_set s v k =>
      settle k (emit (EvLogSet s) (with_rtlog (<[s := v]> (rtlog st)) st))
  | initializeNamespace p k => settle k (do_ensure p st)
  | deleteNamespace p k => settle k (do_retire p st)
  | socket_disconnect s k =>
      let '(st1, l1) := do_disconnect s st in
      let '(st2, l2) := settle k st1 in
      (st2, l1 ++ l2)
  | socket_on_disconnect s h k => settle k (do_on_disconnect s h st)
  | printActivityLogString d k => settle k (emit (EvPrint d) st)
  | fork q k =>
      let '(st1, l1) := settle q st in
      let '(st2, l2) := settle k st1 in
      (st2, l1 ++ l2)
  | _ => (st, [p])
  end.

Section Realtime.
Context (E : Env).

(** One turn of the loop for the chain [p]: its pending request is served
    and its callback runs; a chain that has not run yet is started. *)
Definition step_task (p : prog) (st : State) : State * list prog :=
  match p with
  | getAsync key k => let '(r, st1) := do_get key st in settle (k r) st1
  | incrAsync key k => let '(r, st1) := do_incr key st in settle (k r) st1
  | decrAsync key k => let '(r, st1) := do_decr key st in settle (k r) st1
  | delAsync key k => let '(r, st1) := do_del key st in settle (k r) st1
  | keysAsync pre k => let '(r, st1) := do_keys pre st in settle (k r) st1
  | redisStore_get sid k =>
      settle (k (session_store E sid)) (emit (EvSessionGet sid) st)
  | findOne name k =>
      let r := perspective_table E name in
      settle (k r)
        (emit (EvFindOne name (match r with Some _ => true | None => false end)) st)
  | redis_get s k => settle (k (rtlog st !! s)) (emit (EvLogGet s) st)
  | redis_del s k =>
      settle (k (match rtlog st !! s with Some _ => 1 | None => 0 end))
        (emit (EvLogDel s) (with_rtlog (delete s (rtlog st)) st))
  | _ => settle p st
  end.

(** *** [getUserFromSession]

    The promise is given by its [resolve] continuation; rejection is
    [Throw]. *)
Definition getUserFromSession (sid : string) (resolve : string -> prog) : prog :=
  if requireAccessToken E then
    redisStore_get sid (fun sessionData =>
      match sessionData with
      | SessionErr => Throw
      | SessionData name =>
          if truthy_str name then resolve (default "" name) else Throw
      end)
  else resolve "".

(** *** [printRealtimeLogs] *)
Definition printRealtimeLogs (s : Socket) : prog :=
  redis_get (id s) (fun d =>
    match d with
    | Some d => printActivityLogString d (redis_del (id s) (fun _ => Ret))
    | None => redis_del (id s) (fun _ => Ret)
    end).

(** *** [init]: the 'connection' listener *)

Definition perspName (s : Socket) : option string := query_p (handshake s).

(** The template literal prints an absent name as [undefined]. *)
Definition perspKey (s : Socket) : string :=
  activePerspPrefix +:+ default "undefined" (perspName s).

(** The 'disconnect' listener.  Its first chain reads the counter; if the
  number of open clients is at most one it deletes the Redis entry, then
  looks the perspective up and deletes the namespace; otherwise it
  decrements the number in Redis. *)
Definition retire_lookup (s : Socket) : prog :=
  findOne (perspName s) (fun perspObj =>
    match perspObj with
    | Some p => deleteNamespace p Ret
    | None => Throw
    end).

Definition teardown (s : Socket) : prog :=
  delAsync (perspKey s) (fun _ => retire_lookup s).

Definition disconnect_chain (s : Socket) : prog :=
  getAsync (perspKey s) (fun numOfConn =>
    if js_reply_le numOfConn ONE then teardown s
    else decrAsync (perspKey s) (fun _ => Ret)).

Definition on_disconnect (s : Socket) : prog :=
  fork (disconnect_chain s)
    (if logEnabled E then printRealtimeLogs s else Ret).

(** The chain that starts at [redisClient.getAsync(perspKey)]: if the entry
    does not exist the perspective is looked up, its namespace initialized
    and then the key incremented; otherwise only the key is incremented. *)
Definition count_client (s : Socket) : prog :=
  incrAsync (perspKey s) (fun _ => Ret).

Definition first_client (s : Socket) : prog :=
  findOne (perspName s) (fun perspObj =>
    match perspObj with
    | Some p => initializeNamespace p (count_client s)
    | None => Throw
    end).

Definition subscribe (s : Socket) : prog :=
  getAsync (perspKey s) (fun numOfClients =>
    if js_not_reply numOfClients then first_client s else count_client s).

Definition ipAddress_of (h : Handshake) : option string :=
  if truthy_str (x_forwarded_for h) then x_forwarded_for h
  else if truthy_str (address h) then address h
  else None.

Definition toLog (s : Socket) (user : string) : LogInfo :=
  {| log_ipAddress := ipAddress_of (handshake s);
     log_user := user;
     log_perspective :=
       if truthy_str (query_p (handshake s)) then query_p (handshake s)
       else None |}.

(** The callback of [getUserFromSession(...).then].  The source also
  throws when [socket.handshake] is missing; the listener has read
  [socket.handshake.headers] before, so that branch is not reachable. *)
Definition admitted (s : Socket) (user : string) : prog :=
  if isIpWhitelisted E (ipAddress_of (handshake s)) (ipWhitelist E) then
    let rest :=
      socket_on_disconnect (id s) (on_disconnect s) (subscribe s) in
    if logEnabled E then redis_set (id s) (toLog s user) rest else rest
  else Throw.

(** The [.catch] of the connection chain: no realtime events. *)
Definition on_error (s : Socket) : prog := socket_disconnect (id s) Ret.

Definition on_connection (s : Socket) : prog :=
  if negb (truthy_str (cookie (handshake s))) then
    (* disconnecting socket -- expecting header with cookie *)
    socket_disconnect (id s) Ret
  else
    match SID_REX_exec (default "" (cookie (handshake s))) with
    | None =>
        (* disconnecting socket -- expecting session id in cookie header *)
        socket_disconnect (id s) Ret
    | Some sidMatch =>
        if (length sidMatch <? 2)%nat then socket_disconnect (id s) Ret
        else
          let sid := default "" (sidMatch !! 1%nat) in
          try_catch (getUserFromSession sid (admitted s)) (on_error s)
    end.

(** *** [setupNamespace]

    [parseInt(numOpenClients)] is computed and not used.  The lookup of
    the perspective is started and not returned, so its error is not
    caught. *)
Definition setupNamespace_key (key : string) : prog :=
  getAsync key (fun numOpenClients =>
    let keySplitArr := split_colon key in
    if (1 <? length keySplitArr)%nat then
      fork
        (findOne (keySplitArr !! 1%nat) (fun perspObj =>
           match perspObj with
           | Some p => initializeNamespace p Ret
           | None => Throw
           end))
        Ret
    else Ret).

Definition setupNamespace : prog :=
  keysAsync activePerspPrefix (fun keys =>
    foldr (fun key rest => fork (setupNamespace_key key) rest) Ret keys).

(** *** The process *)

Record Process : Type := { state : State; pool : list prog }.

Inductive sched_item : Type :=
  | Run (i : nat)              (* the reply for the i-th pending chain arrives *)
  | Arrive (s : Socket)        (* a client connects *)
  | ClientClose (s : string).  (* a client goes away *)

Definition run_at (i : nat) (P : Process) : Process :=
  match pool P !! i with
  | Some p =>
      let '(st, new) := step_task p (state P) in
      {| state := st; pool := take i (pool P) ++ new ++ drop (S i) (pool P) |}
  | None => P
  end.

Definition arrive (s : Socket) (P : Process) : Process :=
  let st0 :=
    with_sockets
      (<[id s := {| connected := true; listeners := [] |}]>
         (sockets (state P))) (state P) in
  let '(st, new) := settle (on_connection s) st0 in
  {| state := st; pool := pool P ++ new |}.

Definition client_close (s : string) (P : Process) : Process :=
  let '(st, new) := do_disconnect s (state P) in
  {| state := st; pool := pool P ++ new |}.

Definition sched_step (x : sched_item) (P : Process) : Process :=
  match x with
  | Run i => run_at i P
  | Arrive s => arrive s P
  | ClientClose s => client_close s P
  end.

Definition run (sched : list sched_item) (P : Process) : Process :=
  foldl (fun P x => sched_step x P) P sched.

(** [init(io, redisStore)]: the listener is installed (connections are
    served by [Arrive]) and [setupNamespace] is started. *)
Definition init (st : State) : Process :=
  let '(st1, new) := settle setupNamespace st in
  {| state := st1; pool := new |}.

End Realtime.

Definition empty_state : State :=
  {| redis := ∅; rtlog := ∅; nsps := ∅; nsp_count := 0; sockets := ∅;
     trace := [] |}.

(** [conf.environment[conf.nodeEnv].ipWhitelist], as [setupSocketIO.js]
    reads it when the module is loaded; [None] stands for the error raised
    when [environment] has no entry of that name. *)
Definition conf_ipWhitelist (conf : Config.exports) : option jsval :=
  Config.ipWhitelist <$> Config.environment conf (Config.nodeEnv conf).

(** The call [rtUtils.isIpWhitelisted(ipAddress, ipWhitelist)] made for the
    socket [s]. *)
Definition address_check (E : Env) (s : Socket) : bool :=
  isIpWhitelisted E (ipAddress_of (handshake s)) (ipWhitelist E).

(** ** Bookkeeping of namespaces in a trace *)

#[global] Instance LogInfo_eq_dec : EqDecision LogInfo.
Proof. solve_decision. Defined.

#[global] Instance event_eq_dec : EqDecision event.
Proof. solve_decision. Defined.

(** The event is the construction of the channel of [T]. *)
Definition is_created (T : string) (e : event) : bool :=
  match e with
  | EvEnsure t _ true => String.eqb t T
  | _ => false
  end.

Definition created_count (T : string) (tr : list event) : nat :=
  length (List.filter (is_created T) tr).

(** As long as the channel of [T] was never retired, the registry and the
    trace agree: without a channel no ensure has returned; with a channel
    it was constructed once and every ensure returned its handle. *)
Definition ensure_consistent
    (T : string) (n : gmap string nat) (tr : list event) : Prop :=
  EvRetire T true ∈ tr
  \/ match n !! T with
     | None => forall h c, EvEnsure T h c ∉ tr
     | Some h =>
         created_count T tr = 1%nat
         /\ forall h' c, EvEnsure T h' c ∈ tr -> h' = h
     end.

(** ** The chains one socket can have pending

    The stages below are those of a socket whose key is absent and whose
    perspective is unknown: its chains never reach an increment or a
    decrement. *)

Inductive stage : Type :=
| SAuth (sid : string)   (* waiting for the session *)
| SSub                   (* waiting for the counter *)
| SFirst                 (* first client: waiting for the perspective *)
| SListener              (* 'disconnect' listener, not started yet *)
| SDisc                  (* listener: waiting for the counter *)
| STear                  (* listener: waiting for the deletion of the key *)
| SLook                  (* listener: waiting for the perspective *)
| SLog                   (* printRealtimeLogs: waiting for the entry *)
| SLogDel.               (* printRealtimeLogs: waiting for its deletion *)

Definition stage_prog (E : Env) (s : Socket) (sg : stage) : prog :=
  match sg with
  | SAuth sid => try_catch (getUserFromSession E sid (admitted E s)) (on_error s)
  | SSub => try_catch (subscribe s) (on_error s)
  | SFirst => try_catch (first_client s) (on_error s)
  | SListener => on_disconnect E s
  | SDisc => disconnect_chain s
  | STear => teardown s
  | SLook => retire_lookup s
  | SLog => printRealtimeLogs s
  | SLogDel => redis_del (id s) (fun _ => Ret)
  end.

(** The stages of the connection chain, whose [.catch] disconnects the
    socket. *)
Definition is_chain (sg : stage) : bool :=
  match sg with
  | SAuth _ | SSub | SFirst => true
  | _ => false
  end.

(** An upper bound on the turns of the loop a pending chain of the socket
    can still take, the chains it starts included; a registered listener
    of a connected socket counts for the six turns it takes once started. *)
Definition weight (sg : stage) : nat :=
  match sg with
  | SAuth _ => 9
  | SSub => 2
  | SFirst => 1
  | SListener => 6
  | SDisc => 3
  | STear => 2
  | SLook => 1
  | SLog => 2
  | SLogDel => 1
  end.

Definition total_weight (sgs : list stage) : nat := sum_list_with weight sgs.

Definition listener_weight (ss : SocketState) : nat :=
  if connected ss then 6 * length (listeners ss) else 0.

(** ** The specification's statements, as predicates on runs *)

(** A connection to a topic that persistent storage does not know ends
    disconnected, with the topic's counter (an absent key reads as 0) at its
    value before the attempt.  [sched] is what the loop does after the
    client has arrived, up to the point where no chain is pending. *)
Definition rejects_missing_topic
    (E : Env) (s : Socket) (st : State) (sched : list sched_item) : Prop :=
  perspective_table E (perspName s) = None ->
  let P := run E (Arrive s :: sched) {| state := st; pool := [] |} in
  pool P = [] ->
  connected <$> sockets (state P) !! id s = Some false
  /\ default 0 (redis (state P) !! perspKey s)
     = default 0 (redis st !! perspKey s).

(** In a trace, the increment of [key] comes before every ensure of
    [topic]. *)
Definition increment_before_ensure
    (tr : list event) (key topic : string) : Prop :=
  forall (i j : nat) h c v,
    tr !! i = Some (EvEnsure topic h c) ->
    tr !! j = Some (EvIncr key v) ->
    (j < i)%nat.

(** In a trace, every ensure of [topic] comes before the increment of
    [key]. *)
Definition ensure_before_increment
    (tr : list event) (key topic : string) : Prop :=
  forall (i j : nat) h c v,
    tr !! i = Some (EvEnsure topic h c) ->
    tr !! j = Some (EvIncr key v) ->
    (i < j)%nat.

(** A socket that goes away before its increment was reached leaves the
    counter store as it was before it arrived, whatever the loop does
    before ([sched1]) and after ([sched2]) the client closes. *)
Definition early_close_leaves_store
    (E : Env) (s : Socket) (st : State) (sched1 sched2 : list sched_item) : Prop :=
  let P1 := run E (Arrive s :: sched1) {| state := st; pool := [] |} in
  (forall v, EvIncr (perspKey s) v ∉ trace (state P1)) ->
  let P2 := run E (ClientClose (id s) :: sched2) P1 in
  redis (state P2) = redis st.


(** ** Scenarios *)

Module Scenario.

(** Perspectives known to persistent storage: only [ops] (and, in
    [E_first_row], a lookup without a name yields that row). *)
Definition table (n : option string) : option Persp :=
  match n with
  | Some name => if String.eqb name "ops" then Some {| persp_name := "ops" |} else None
  | None => None
  end.

Definition sessions (sid : string) : SessionReply :=
  if String.eqb sid "abc" then SessionData (Some "alice") else SessionData None.

Definition E_open : Env :=
  {| requireAccessToken := false; logEnabled := false;
     ipWhitelist := JArr [JArr [JStr "0.0.0.0"; JStr "255.255.255.255"]];
     isIpWhitelisted := fun _ _ => true;
     session_store := sessions;
     perspective_table := table |}.

Definition E_auth : Env :=
  {| requireAccessToken := true; logEnabled := false;
     ipWhitelist := JArr [JArr [JStr "0.0.0.0"; JStr "255.255.255.255"]];
     isIpWhitelisted := fun _ _ => true;
     session_store := sessions;
     perspective_table := table |}.

Definition E_first_row : Env :=
  {| requireAccessToken := false; logEnabled := false;
     ipWhitelist := JArr [JArr [JStr "0.0.0.0"; JStr "255.255.255.255"]];
     isIpWhitelisted := fun _ _ => true;
     session_store := sessions;
     perspective_table := fun n =>
       match n with
       | None => Some {| persp_name := "ops" |}
       | Some _ => table n
       end |}.

Definition hs (p : option string) : Handshake :=
  {| cookie := Some "io=x; connect.sid=s%3Aabc.sig";
     x_forwarded_for := None;
     address := Some "10.0.0.7";
     query_p := p |}.

Definition ops1 : Socket := {| id := "s1"; handshake := hs (Some "ops") |}.
Definition ops2 : Socket := {| id := "s2"; handshake := hs (Some "ops") |}.
Definition ghost : Socket := {| id := "s3"; handshake := hs (Some "ghost") |}.
Definition no_topic : Socket := {| id := "s4"; handshake := hs None |}.

(** A handshake whose only cookie is named [connect_sid]. *)
Definition other_field : Socket :=
  {| id := "s5";
     handshake := {| cookie := Some "connect_sid=s%3Aabc.sig";
                     x_forwarded_for := None;
                     address := Some "10.0.0.7";
                     query_p := Some "ops" |} |}.

Definition idle : Process := {| state := empty_state; pool := [] |}.

(** The counter of [ghost] is 1 and this process serves the topic, while
    persistent storage no longer knows it. *)
Definition st_ghost : State :=
  {| redis := {[ "activePersp:ghost" := 1 ]}; rtlog := ∅;
     nsps := {[ "ghost" := 0%nat ]}; nsp_count := 1; sockets := ∅;
     trace := [] |}.

(** The counter of [ops] is 0 at start-up. *)
Definition st_zero : State :=
  {| redis := {[ "activePersp:ops" := 0 ]}; rtlog := ∅;
     nsps := ∅; nsp_count := 0; sockets := ∅; trace := [] |}.

End Scenario.

(** ** Chains that only read *)

(** Chains made of GET, KEYS and lookups of perspectives, which may
    initialize namespaces and start further chains of the same kind. *)
Inductive reads_only : prog -> Prop :=
| ro_Ret : reads_only Ret
| ro_Throw : reads_only Throw
| ro_getAsync key k :
    (forall r, reads_only (k r)) -> reads_only (getAsync key k)
| ro_keysAsync pre k :
    (forall r, reads_only (k r)) -> reads_only (keysAsync pre k)
| ro_findOne name k :
    (forall r, reads_only (k r)) -> reads_only (findOne name k)
| ro_initializeNamespace p k :
    reads_only k -> reads_only (initializeNamespace p k)
| ro_fork q k :
    reads_only q -> reads_only k -> reads_only (fork q k).

(** The string has no colon. *)
Fixpoint no_colon (s : string) : bool :=
  match s with
  | EmptyString => true
  | String c r => negb (Ascii.eqb c ":"%char) && no_colon r
  end.

(** ** [config/redisConfig.js] *)

Module RedisConfig.

(** What reading a property of [process.env] yields.  A variable that is
    set gives its string.  [process.env] is an object, so a name that is
    not set is looked up in [Object.prototype]: there it finds a function
    (or, for [__proto__], the prototype object); any other name gives
    [undefined]. *)
Inductive env_value : Type :=
| EnvUndefined
| EnvString (s : string)
| EnvInherited (name : string).

Definition Object_prototype : list string :=
  [ "constructor"; "__defineGetter__"; "__defineSetter__"; "hasOwnProperty";
    "__lookupGetter__"; "__lookupSetter__"; "isPrototypeOf";
    "propertyIsEnumerable"; "toString"; "valueOf"; "__proto__";
    "toLocaleString" ].

(** [pe[name]]. *)
Definition get (pe : Config.process_env) (name : string) : env_value :=
  match pe name with
  | Some s => EnvString s
  | None =>
      if bool_decide (name ∈ Object_prototype) then EnvInherited name
      else EnvUndefined
  end.

Definition truthy (v : env_value) : bool :=
  match v with
  | EnvUndefined => false
  | EnvString s => negb (String.eqb s "")
  | EnvInherited _ => true
  end.

Definition DEFAULT_LOCAL_REDIS_URL : string := "//127.0.0.1:6379".

Definition PRIMARY_REDIS (pe : Config.process_env) : string :=
  Config.or_default (pe "REDIS_URL") DEFAULT_LOCAL_REDIS_URL.

Definition channelName : string := "focus".

(** [pe.X && pe[pe.X] ? pe[pe.X] : PRIMARY_REDIS] for the selector
    variable [X]: the selector names another variable, which holds the
    URL.  [X] is one of the seven names of [instanceUrl]; none of them is
    a property of [Object.prototype], so [pe.X] is the variable's string or
    [undefined]. *)
Definition instance (pe : Config.process_env) (selector : string) : env_value :=
  if truthy_str (pe selector)
     && truthy (get pe (default "" (pe selector)))
  then get pe (default "" (pe selector))
  else EnvString (PRIMARY_REDIS pe).

Record instanceUrls : Type := {
  cache : env_value;
  limiter : env_value;
  pubsub : env_value;
  queue : env_value;
  realtimeLogging : env_value;
  sampleStore : env_value;
  session : env_value;
}.

Definition instanceUrl (pe : Config.process_env) : instanceUrls :=
  {| cache := instance pe "REDIS_CACHE";
     limiter := instance pe "REDIS_LIMITER";
     pubsub := instance pe "REDIS_PUBSUB";
     queue := instance pe "REDIS_QUEUE";
     realtimeLogging := instance pe "REDIS_REALTIME_LOGGING";
     sampleStore := instance pe "REDIS_SAMPLE_STORE";
     session := instance pe "REDIS_SESSION" |}.

(** What the entry of a selector has to satisfy: it is never [undefined]
    nor the empty string, and an entry that is not a string comes from
    [Object.prototype], under a name that is not set; it is the primary
    URL or what [pe] yields for the name that this selector holds; a
    selected variable that is set and not empty is the entry; and so is an
    inherited property that the selector names when no variable of that
    name is set. *)
Definition follows (pe : Config.process_env) (selector : string)
    (url : env_value) : Prop :=
  match url with
  | EnvUndefined => False
  | EnvString s => s <> ""
  | EnvInherited name =>
      pe selector = Some name /\ pe name = None /\ name ∈ Object_prototype
  end
  /\ (url = EnvString (PRIMARY_REDIS pe)
      \/ exists name, pe selector = Some name /\ get pe name = url)
  /\ (forall name s,
        pe selector = Some name -> name <> "" ->
        pe name = Some s -> s <> "" -> url = EnvString s)
  /\ (forall name,
        pe selector = Some name -> pe name = None ->
        name ∈ Object_prototype -> url = EnvInherited name).

(** An environment in which [REDIS_CACHE] holds the name [toString] and
    nothing else is set. *)
Definition cache_names_toString : Config.process_env :=
  fun name => if String.eqb name "REDIS_CACHE" then Some "toString" else None.

End RedisConfig.

(** ** [db/helpers/aspectUtils.js]: validation of status ranges *)

Module AspectUtils.

(** A JavaScript number: a finite double is given by its exact value. *)
Inductive number : Type :=
| NaN
| Infinity (negative : bool)
| Finite (q : Q).

(** The values a range field can hold.  A string is its sequence of code
    units; an object is the list of its own properties (keys distinct). *)
Inductive value : Type :=
| VUndefined
| VNull
| VBool (b : bool)
| VNum (n : number)
| VStr (units : list N)
| VArr (elements : list value)
| VObj (props : list (string * value)).

Inductive error : Type :=
| InvalidRangeSizeError
| InvalidRangeValuesError
| TypeError.

(** A call returns [undefined] or throws. *)
Inductive outcome : Type :=
| Returns
| Throws (e : error).

(** [a; b] for two calls made for their effect. *)
Definition and_then (a b : outcome) : outcome :=
  match a with
  | Returns => b
  | Throws e => Throws e
  end.

(** [a > b] on numbers: false as soon as one side is [NaN]. *)
Definition num_gt (a b : number) : bool :=
  match a, b with
  | NaN, _ | _, NaN => false
  | Infinity true, _ => false
  | Infinity false, Infinity false => false
  | Infinity false, _ => true
  | Finite _, Infinity true => true
  | Finite _, Infinity false => false
  | Finite x, Finite y => negb (Qle_bool x y)
  end.

(** [!!v]. *)
Definition truthy (v : value) : bool :=
  match v with
  | VUndefined | VNull => false
  | VBool b => b
  | VNum NaN => false
  | VNum (Infinity _) => true
  | VNum (Finite q) => negb (Qeq_bool q 0)
  | VStr units => match units with [] => false | _ => true end
  | VArr _ | VObj _ => true
  end.

Definition own_property (props : list (string * value)) (key : string) : value :=
  match List.find (fun kv => String.eqb (fst kv) key) props with
  | Some kv => snd kv
  | None => VUndefined
  end.

Definition of_nat (n : nat) : value := VNum (Finite (inject_Z (Z.of_nat n))).

(** [v.length] for a value other than [null] and [undefined]. *)
Definition get_length (v : value) : value :=
  match v with
  | VArr l => of_nat (length l)
  | VStr units => of_nat (length units)
  | VObj props => own_property props "length"
  | _ => VUndefined
  end.

(** [v[i]] for [i] = 0 or 1: reading a property of [null] or [undefined]
    is a [TypeError] ([None]). *)
Definition get_index (v : value) (i : nat) : option value :=
  match v with
  | VUndefined | VNull => None
  | VArr l => Some (default VUndefined (l !! i))
  | VStr units =>
      Some (match units !! i with Some u => VStr [u] | None => VUndefined end)
  | VObj props => Some (own_property props (if Nat.eqb i 0 then "0" else "1"))
  | VBool _ | VNum _ => Some VUndefined
  end.

(** [v !== 2]. *)
Definition strict_ne_2 (v : value) : bool :=
  match v with
  | VNum (Finite q) => negb (Qeq_bool q 2)
  | _ => true
  end.

Definition isArray (v : value) : bool :=
  match v with VArr _ => true | _ => false end.

Definition is_number (v : value) : bool :=
  match v with VNum _ => true | _ => false end.

Section Validation.
(** [a > b] when the operands are not both numbers; [validateStatusRange]
    never gets there. *)
Variable coerced_gt : value -> value -> bool.

Definition js_gt (a b : value) : bool :=
  match a, b with
  | VNum x, VNum y => num_gt x y
  | _, _ => coerced_gt a b
  end.

Definition arrayHasTwoElements (arr : value) : outcome :=
  if truthy arr && strict_ne_2 (get_length arr)
  then Throws InvalidRangeSizeError
  else Returns.

Definition noNestedArrays (arr : value) : outcome :=
  match get_index arr 0, get_index arr 1 with
  | Some a0, Some a1 =>
      if isArray a0 || isArray a1 then Throws InvalidRangeValuesError
      else Returns
  | _, _ => Throws TypeError
  end.

Definition valuesAreNumeric (arr : value) : outcome :=
  match get_index arr 0, get_index arr 1 with
  | Some a0, Some a1 =>
      if negb (is_number a0) || negb (is_number a1)
      then Throws InvalidRangeValuesError
      else Returns
  | _, _ => Throws TypeError
  end.

Definition arrayValuesAscend (arr : value) : outcome :=
  match get_index arr 0, get_index arr 1 with
  | Some a0, Some a1 =>
      if js_gt a0 a1 then Throws InvalidRangeValuesError else Returns
  | _, _ => Throws TypeError
  end.

Definition validateStatusRange (arr : value) : outcome :=
  and_then (arrayHasTwoElements arr)
    (and_then (noNestedArrays arr)
       (and_then (valuesAreNumeric arr) (arrayValuesAscend arr))).

End Validation.

End AspectUtils.

(** ** [clock/scheduledJobs/jobCleanup.js]: removal of completed jobs *)

Module JobCleanup.

(** A completed job of the queue: the time of its last update, and whether
    kue reports an error when asked to remove it. *)
Record job : Type := {
  job_id : nat;
  updated_at : Z;
  remove_fails : bool;
}.

(** The counters that [execute] keeps in its closure. *)
Record counts : Type := {
  iterations : nat;
  removedJobCount : nat;
  skippedJobCount : nat;
  errorJobCount : nat;
}.

Inductive settled : Type := Resolved | Rejected.

(** How a promise settles, the counters at that point and the completed
    jobs left in the queue. *)
Record result : Type := {
  how : settled;
  counters : counts;
  complete : list job;
}.

(** The batch size that [execute] is called with.  A direct caller passes a
    number; [enqueue] passes [conf.JOB_REMOVAL_BATCH_SIZE], which is the
    number 1000 or, when [KUE_JOBS_REMOVAL_BATCH_SIZE] is set, the string
    of the environment.  [Str] covers the strings of decimal digits, most
    significant digit first. *)
Inductive size : Type :=
| Num (n : nat)
| Str (digits : Decimal.uint).

(** [Number(n)], as the comparison [results.length < n] takes it. *)
Definition to_number (n : size) : nat :=
  match n with
  | Num n => n
  | Str digits => Nat.of_uint digits
  end.

(** [n === 0]: a string is never strictly equal to a number. *)
Definition strict_eq_0 (n : size) : bool :=
  match n with
  | Num O => true
  | _ => false
  end.

(** [skippedJobCount + n - 1].  With a number [+] adds; with a string it
    appends the digits of [n] to the decimal numeral of [skippedJobCount],
    and [- 1] turns the numeral back into a number. *)
Definition last_rank (skipped : nat) (n : size) : Z :=
  match n with
  | Num n => Z.of_nat (skipped + n) - 1
  | Str digits =>
      Z.of_nat (Nat.of_uint (Decimal.app (Nat.to_uint skipped) digits)) - 1
  end.

(** [kue.Job.rangeByState('complete', from, to, 'asc')] reads the sorted
    set of completed jobs with [ZRANGE from to]: the jobs ranked [from] to
    [to], both included, where a negative [to] counts from the end of the
    set ([-1] is the last job). *)
Definition rangeByState (q : list job) (from : nat) (to : Z) : list job :=
  let stop := if to <? 0 then Z.of_nat (length q) + to else to in
  take (Z.to_nat (stop + 1 - Z.of_nat from)) (drop from q).

Section Execute.
(** [range_fails i]: the call of [kue.Job.rangeByState] made in the [i]-th
    iteration reports an error. *)
Variable range_fails : nat -> bool.
(** [delay] is the argument of [execute], a number ([config.js] multiplies
    the environment's minutes by 60000); [now] is the clock reading taken
    in the first iteration that asks the queue. *)
Variables (delay now : Z).

(** The test that makes a job 'skipped'. *)
Definition too_young (j : job) : bool :=
  (0 <? delay) && (now - updated_at j <? delay).

(** A job of a batch stays in the queue when it is skipped or when its
    removal fails. *)
Definition stays (j : job) : bool := too_young j || remove_fails j.

Definition failed (j : job) : bool := negb (too_young j) && remove_fails j.

(** [deleteNextNJobs(n)].  The batch is what [rangeByState] returns, a run
    of consecutive jobs that starts at rank [from]; all removals of a batch
    are started before any result is looked at. *)
Fixpoint deleteNextNJobs (fuel : nat) (n : size) (c : counts) (q : list job)
    : option result :=
  match fuel with
  | O => None
  | S fuel =>
      let c1 := {| iterations := S (iterations c);
                   removedJobCount := removedJobCount c;
                   skippedJobCount := skippedJobCount c;
                   errorJobCount := errorJobCount c |} in
      if strict_eq_0 n then
        Some {| how := Resolved; counters := c1; complete := q |}
      else if range_fails (iterations c1) then
        Some {| how := Rejected; counters := c1; complete := q |}
      else
        let from := skippedJobCount c1 in
        let to := last_rank (skippedJobCount c1) n in
        let jobs := rangeByState q from to in
        let q1 := take from q ++ List.filter stays jobs
                  ++ drop (from + length jobs) q in
        let errors := length (List.filter failed jobs) in
        if (0 <? errors)%nat then
          Some {| how := Rejected;
                  counters := {| iterations := iterations c1;
                                 removedJobCount := removedJobCount c1;
                                 skippedJobCount := skippedJobCount c1;
                                 errorJobCount := errorJobCount c1 + errors |};
                  complete := q1 |}
        else
          let skippedCount := length (List.filter too_young jobs) in
          let c2 := {| iterations := iterations c1;
                       removedJobCount :=
                         removedJobCount c1 + (length jobs - skippedCount);
                       skippedJobCount := skippedJobCount c1 + skippedCount;
                       errorJobCount := errorJobCount c1 |} in
          if (length jobs <? to_number n)%nat then
            Some {| how := Resolved; counters := c2; complete := q1 |}
          else deleteNextNJobs fuel n c2 q1
  end.

(** [execute(batchSize, delay)]: the result of the loop, and the counters
    handed to [logActivity] when the loop resolved and
    [enableJobCleanupActivityLogs] is on. *)
Definition execute (enableJobCleanupActivityLogs : bool)
    (fuel : nat) (batchSize : size) (q : list job)
    : option (result * option counts) :=
  match deleteNextNJobs fuel batchSize
          {| iterations := 0; removedJobCount := 0; skippedJobCount := 0;
             errorJobCount := 0 |} q with
  | Some r =>
      Some (r, match how r with
               | Resolved =>
                   if enableJobCleanupActivityLogs then Some (counters r) else None
               | Rejected => None
               end)
  | None => None
  end.

End Execute.

Definition no_counts : counts :=
  {| iterations := 0; removedJobCount := 0; skippedJobCount := 0;
     errorJobCount := 0 |}.

End JobCleanup.

(** Completed jobs for the instances of the clean-up results: with the
    clock at 100 and a delay of 30 only the first one of either queue is
    young. *)
Module CleanupScenario.

Definition three_jobs : list JobCleanup.job :=
  [ {| JobCleanup.job_id := 1; JobCleanup.updated_at := 95;
       JobCleanup.remove_fails := false |};
    {| JobCleanup.job_id := 2; JobCleanup.updated_at := 50;
       JobCleanup.remove_fails := false |};
    {| JobCleanup.job_id := 3; JobCleanup.updated_at := 60;
       JobCleanup.remove_fails := false |} ].

Definition six_jobs : list JobCleanup.job :=
  three_jobs
  ++ [ {| JobCleanup.job_id := 4; JobCleanup.updated_at := 10;
          JobCleanup.remove_fails := false |};
       {| JobCleanup.job_id := 5; JobCleanup.updated_at := 20;
          JobCleanup.remove_fails := false |};
       {| JobCleanup.job_id := 6; JobCleanup.updated_at := 30;
          JobCleanup.remove_fails := false |} ].

Definition queue_answers : nat -> bool := fun _ => false.

End CleanupScenario.

(** * Properties *)

(** ** Configuration *)

Lemma push_length (arr : list jsval) (x : jsval) :
  (Config.push arr x).2 = JNum (Z.of_nat (length arr) + 1).
Proof.
  unfold Config.push. simpl. rewrite length_app. simpl.
  f_equal. lia.
Qed.

Lemma admitted_address_check E s user :
  address_check E s = false -> admitted E s user = Throw.
Proof.
  unfold address_check, admitted. intros ->. reflexivity.
Qed.

(** C10: in the [build] entry of [environment], [ipWhitelist] is what
    [iplist.push] returns, the new length of the array, and not an array of
    ranges; when the process runs with [NODE_ENV=build] this number is what
    the address check of the connection gate receives as its whitelist. *)
Theorem build_ipWhitelist_is_push_length
    (parseIPlist : string -> list jsval) (pe : Config.process_env) :
  pe "NODE_ENV" = Some "build" ->
  let conf := Config.module_exports parseIPlist pe in
  let n := Z.of_nat (length (Config.iplist parseIPlist pe)) + 1 in
  Config.ipWhitelist <$> Config.environment conf "build" = Some (JNum n)
  /\ conf_ipWhitelist conf = Some (JNum n)
  /\ (forall v, conf_ipWhitelist conf = Some v -> is_array v = false)
  /\ (forall E s, Some (ipWhitelist E) = conf_ipWhitelist conf ->
        address_check E s
        = isIpWhitelisted E (ipAddress_of (handshake s)) (JNum n)).
Proof.
  intros Hnode conf n.
  assert (Hb : Config.ipWhitelist <$> Config.environment conf "build" = Some (JNum n)).
  { subst conf n. unfold Config.module_exports.
    pose proof (push_length (Config.iplist parseIPlist pe) (JStr "::ffff:127.0.0.1")) as Hp.
    destruct (Config.push _ _) as [arr1 pushed]. simpl in *. by rewrite Hp. }
  assert (Hn : Config.nodeEnv conf = "build").
  { subst conf. unfold Config.module_exports.
    destruct (Config.push _ _) as [arr1 pushed]. simpl.
    unfold Config.nodeEnv_. by rewrite Hnode. }
  assert (Hc : conf_ipWhitelist conf = Some (JNum n)).
  { unfold conf_ipWhitelist. by rewrite Hn. }
  repeat split; try done.
  - intros v Hv. rewrite Hc in Hv. by inversion Hv.
  - intros E s HE. rewrite Hc in HE. inversion HE as [Hw].
    unfold address_check. by rewrite Hw.
Qed.

Lemma build_ipWhitelist_is_push_length_witness :
  let pe := fun v : string => if String.eqb v "NODE_ENV" then Some "build" else None in
  let parse := fun _ : string => [JArr [JStr "0.0.0.0"; JStr "255.255.255.255"]] in
  pe "NODE_ENV" = Some "build"
  /\ conf_ipWhitelist (Config.module_exports parse pe) = Some (JNum 2).
Proof.
  intros pe parse. split; [reflexivity |].
  exact (proj1 (proj2 (build_ipWhitelist_is_push_length parse pe eq_refl))).
Defined.

(** ** The connection gate *)

(** What the gate does for the pattern as the source has it: when the
    handshake has no cookie header (or an empty one), or the cookie has no
    match for [SID_REX], the 'connection' listener disconnects the socket
    before it returns: the only effect is the disconnect, no chain is left
    pending, so the session store is never asked and no counter is
    touched. *)
Theorem bad_cookie_is_disconnected_at_once (E : Env) (s : Socket) (P : Process) :
  truthy_str (cookie (handshake s)) = false
  \/ SID_REX_exec (default "" (cookie (handshake s))) = None ->
  let P' := arrive E s P in
  pool P' = pool P
  /\ trace (state P') = trace (state P) ++ [EvDisconnect (id s)]
  /\ redis (state P') = redis (state P)
  /\ rtlog (state P') = rtlog (state P)
  /\ nsps (state P') = nsps (state P)
  /\ sockets (state P') !! id s = Some {| connected := false; listeners := [] |}.
Proof.
  intros Hbad.
  assert (Hprog : on_connection E s = socket_disconnect (id s) Ret).
  { unfold on_connection. destruct Hbad as [Hc | Hm].
    - by rewrite Hc.
    - rewrite Hm. by destruct (negb _). }
  unfold arrive. rewrite Hprog. simpl.
  unfold do_disconnect. simpl. rewrite lookup_insert_eq. simpl.
  rewrite lookup_insert_eq, app_nil_r. done.
Qed.

Lemma bad_cookie_is_disconnected_at_once_witness :
  let s := {| id := "s9";
              handshake := {| cookie := Some "theme=dark"; x_forwarded_for := None;
                              address := Some "10.0.0.7"; query_p := Some "ops" |} |} in
  let E := {| requireAccessToken := true; logEnabled := true; ipWhitelist := JArr [];
              isIpWhitelisted := fun _ _ => true;
              session_store := fun _ => SessionErr;
              perspective_table := fun _ => None |} in
  let P' := arrive E s {| state := empty_state; pool := [] |} in
  pool P' = [] /\ trace (state P') = [EvDisconnect "s9"].
Proof.
  intros s E P'.
  pose proof (bad_cookie_is_disconnected_at_once E s
                {| state := empty_state; pool := [] |}
                (or_intror eq_refl)) as H.
  exact (conj (proj1 H) (proj1 (proj2 H))).
Defined.

Lemma strip_prefix_Some (p s r : string) :
  strip_prefix p s = Some r -> s = p +:+ r.
Proof.
  revert s. induction p as [| a p IH]; intros s; simpl.
  - by intros [= ->].
  - destruct s as [| b s]; [done |].
    destruct (Ascii.eqb_spec a b) as [-> | _]; [| done].
    intros H. change (String b p +:+ r) with (String b (p +:+ r)).
    by rewrite (IH s H).
Qed.

(** The pattern of the source accepts every cookie that has the field the
    specification asks for. *)
Lemma spec_cookie_form_has_a_match (c : string) :
  spec_cookie_form c = true -> is_Some (SID_REX_exec c).
Proof.
  induction c as [| a c IH].
  - cbn. unfold spec_field_at. cbn. done.
  - cbn [spec_cookie_form SID_REX_exec]. intros H.
    apply orb_true_iff in H as [Hat | Hrest].
    + unfold spec_field_at in Hat.
      destruct (strip_prefix "connect.sid=s%3A" (String a c)) as [r |] eqn:Hr;
        [| done].
      destruct (group_then_dot r) as [g |] eqn:Hg; [| done].
      apply strip_prefix_Some in Hr. rewrite Hr.
      change ("connect.sid=s%3A" +:+ r)
        with (String "c" (String "o" (String "n" (String "n" (String "e"
               (String "c" (String "t" (String "." (String "s" (String "i"
               (String "d" (String "=" (String "s" (String "%" (String "3"
               (String "A" r)))))))))))))))).
      unfold SID_REX_at.
      cbn [strip_prefix Ascii.eqb Bool.eqb is_line_terminator orb].
      rewrite Hg. by eexists.
    + destruct (SID_REX_at (String a c)); [by eexists | by apply IH].
Qed.

(** C8, at a cookie without the field: the only cookie of the handshake is
    named [connect_sid], so the header has no field of the form
    [connect.sid=s%3A<id>.<signature>].  The unescaped dot of [SID_REX]
    matches the underscore: the listener does not disconnect the socket
    but leaves the session lookup for [abc] pending, whatever the rest of
    the process is doing; with that session valid the socket goes on to
    subscribe and is counted. *)
Theorem cookie_of_another_name_passes_the_gate (E : Env) (P : Process) :
  let s := Scenario.other_field in
  let c := default "" (cookie (handshake s)) in
  spec_cookie_form c = false
  /\ SID_REX_exec c = Some ["connect_sid=s%3Aabc."; "abc"]
  /\ (requireAccessToken E = true ->
      let P' := arrive E s P in
      pool P'
      = pool P ++ [try_catch (getUserFromSession E "abc" (admitted E s))
                     (on_error s)]
      /\ trace (state P') = trace (state P)
      /\ redis (state P') = redis (state P)
      /\ sockets (state P') !! id s
         = Some {| connected := true; listeners := [] |})
  /\ (let P2 := run Scenario.E_auth
                  [Arrive s; Run 0; Run 0; Run 0; Run 0]%nat Scenario.idle in
      pool P2 = []
      /\ connected <$> sockets (state P2) !! id s = Some true
      /\ redis (state P2) = {[ "activePersp:ops" := 1 ]}
      /\ trace (state P2)
         = [EvSessionGet "abc"; EvGet "activePersp:ops" None;
            EvFindOne (Some "ops") true; EvEnsure "ops" 0 true;
            EvIncr "activePersp:ops" 1]).
Proof.
  intros s c. split; [reflexivity |]. split; [reflexivity |]. split.
  - intros Hrat P'. subst P'.
    unfold arrive, on_connection. cbn -[admitted on_error].
    unfold getUserFromSession. rewrite Hrat. cbn -[admitted on_error].
    rewrite lookup_insert_eq. done.
  - vm_compute. done.
Qed.

(** ** Symbolic execution of the loop *)

Ltac loop_exec :=
  cbn -[perspKey perspName Nat.ltb split_colon]; unfold run_at;
  cbn -[perspKey perspName Nat.ltb split_colon].

(** ** Teardown on disconnect *)


Lemma redis_do_ensure (p : Persp) (st : State) : redis (do_ensure p st) = redis st.
Proof. unfold do_ensure. by destruct (nsps st !! persp_name p). Qed.



(** C9: in the teardown of the 'disconnect' listener, when the counter read
    is at most one (or the key is absent) the key is deleted first and the
    perspective looked up afterwards; when the lookup finds nothing the
    chain ends with an unhandled error: the namespace is not retired, the
    deleted key is not put back, and nothing is left pending that could do
    either. *)
Theorem teardown_deletes_key_before_lookup (E : Env) (s : Socket) (st : State) :
  js_reply_le (redis st !! perspKey s) ONE = true ->
  perspective_table E (perspName s) = None ->
  let P := run E [Run 0; Run 0; Run 0]%nat
             {| state := st; pool := [disconnect_chain s] |} in
  pool P = []
  /\ trace (state P)
     = trace st ++ [EvGet (perspKey s) (redis st !! perspKey s);
                    EvDel (perspKey s)
                      (match redis st !! perspKey s with Some _ => 1 | None => 0 end);
                    EvFindOne (perspName s) false;
                    EvUnhandled]
  /\ redis (state P) = delete (perspKey s) (redis st)
  /\ nsps (state P) = nsps st.
Proof.
  intros Hle Hnf. loop_exec. rewrite Hle. loop_exec. rewrite Hnf. loop_exec.
  rewrite <- ?app_assoc. done.
Qed.

Lemma teardown_deletes_key_before_lookup_witness :
  let P := run Scenario.E_open [Run 0; Run 0; Run 0]%nat
             {| state := Scenario.st_ghost;
                pool := [disconnect_chain Scenario.ghost] |} in
  redis (state P) = delete "activePersp:ghost" (redis Scenario.st_ghost)
  /\ nsps (state P) = nsps Scenario.st_ghost.
Proof.
  intros P.
  exact (proj2 (proj2 (teardown_deletes_key_before_lookup
                         Scenario.E_open Scenario.ghost Scenario.st_ghost
                         eq_refl eq_refl))).
Defined.



(** ** Subscription on connect *)

(** When access tokens are not required, logging is off and the gate lets
    the socket through, the 'connection' listener returns with the
    'disconnect' listener registered and the subscription chain waiting for
    the counter. *)
Lemma arrive_admitted (E : Env) (s : Socket) (P : Process) (whole sid : string) :
  requireAccessToken E = false ->
  logEnabled E = false ->
  truthy_str (cookie (handshake s)) = true ->
  SID_REX_exec (default "" (cookie (handshake s))) = Some [whole; sid] ->
  address_check E s = true ->
  arrive E s P
  = {| state :=
         with_sockets
           (<[id s := {| connected := true; listeners := [on_disconnect E s] |}]>
              (sockets (state P))) (state P);
       pool := pool P ++ [try_catch (subscribe s) (on_error s)] |}.
Proof.
  intros Hrat Hlog Hc Hm Hip. unfold arrive, on_connection.
  rewrite Hc, Hm. cbn -[perspKey perspName subscribe on_disconnect].
  unfold getUserFromSession. rewrite Hrat. unfold admitted.
  unfold address_check in Hip. rewrite Hip, Hlog.
  cbn -[perspKey perspName on_disconnect].
  unfold do_on_disconnect. cbn -[perspKey perspName on_disconnect].
  rewrite lookup_insert_eq. cbn -[perspKey perspName on_disconnect].
  by rewrite insert_insert_eq.
Qed.

(** C2, as stated, fails: a first client of [ops] is admitted; the channel
    is created (third event) before the key is incremented (fourth
    event). *)
Lemma increment_before_ensure_counterexample :
  ~ increment_before_ensure
      (trace (state (run Scenario.E_open
                       [Arrive Scenario.ops1; Run 0; Run 0; Run 0]%nat
                       Scenario.idle)))
      "activePersp:ops" "ops".
Proof.
  assert (Htr : trace (state (run Scenario.E_open
                       [Arrive Scenario.ops1; Run 0; Run 0; Run 0]%nat
                       Scenario.idle))
                = [EvGet "activePersp:ops" None; EvFindOne (Some "ops") true;
                   EvEnsure "ops" 0 true; EvIncr "activePersp:ops" 1])
    by (vm_compute; reflexivity).
  rewrite Htr. intros H.
  specialize (H 2%nat 3%nat 0%nat true 1 eq_refl eq_refl). lia.
Qed.

(** C2, amended: for an admitted connection the chain first reads the
    counter.  When the key is absent and the perspective is found, the
    namespace is ensured and only then the key incremented; when the key is
    present the key is incremented and no namespace is ensured; when the
    key is absent and the perspective is not found, nothing is
    incremented. *)
Theorem ensure_precedes_increment (E : Env) (s : Socket) (st : State) :
  let P0 := {| state := st; pool := [try_catch (subscribe s) (on_error s)] |} in
  let P2 := run E [Run 0; Run 0]%nat P0 in
  let P3 := run E [Run 0; Run 0; Run 0]%nat P0 in
  match redis st !! perspKey s, perspective_table E (perspName s) with
  | Some n, _ =>
      pool P2 = []
      /\ trace (state P2)
         = trace st ++ [EvGet (perspKey s) (Some n); EvIncr (perspKey s) (n + 1)]
  | None, Some p =>
      pool P3 = []
      /\ exists h c tr,
           trace (state P3) = trace st ++ tr
           /\ tr = [EvGet (perspKey s) None; EvFindOne (perspName s) true;
                    EvEnsure (persp_name p) h c; EvIncr (perspKey s) 1]
           /\ ensure_before_increment tr (perspKey s) (persp_name p)
  | None, None =>
      redis (state P2) = redis st /\ nsps (state P2) = nsps st
  end.
Proof.
  destruct (redis st !! perspKey s) as [n |] eqn:Hn.
  - loop_exec. rewrite Hn. loop_exec. rewrite Hn.
    rewrite <- ?app_assoc. done.
  - loop_exec. rewrite Hn. loop_exec.
    destruct (perspective_table E (perspName s)) as [p |] eqn:Hp; loop_exec.
    + split; [done |]. unfold do_ensure. simpl.
      destruct (nsps st !! persp_name p) as [h |] eqn:Hh; simpl.
      * exists h, false, [EvGet (perspKey s) None; EvFindOne (perspName s) true;
                     EvEnsure (persp_name p) h false; EvIncr (perspKey s) 1].
        rewrite ?Hn. rewrite <- ?app_assoc. split; [done |]. split; [done |].
        intros i j h' c' v Hi Hj.
        destruct i as [| [| [| [| i]]]]; simplify_eq/=;
          destruct j as [| [| [| [| j]]]]; simplify_eq/=; lia.
      * exists (nsp_count st), true,
          [EvGet (perspKey s) None; EvFindOne (perspName s) true;
           EvEnsure (persp_name p) (nsp_count st) true; EvIncr (perspKey s) 1].
        rewrite ?Hn. rewrite <- ?app_assoc. split; [done |]. split; [done |].
        intros i j h' c' v Hi Hj.
        destruct i as [| [| [| [| i]]]]; simplify_eq/=;
          destruct j as [| [| [| [| j]]]]; simplify_eq/=; lia.
    + unfold do_disconnect. simpl.
      destruct (sockets st !! id s) as [ss |]; simpl; [| done].
      destruct (connected ss); simpl; done.
Qed.

(** Without [p] in the query the name is [undefined] and the chain works
    on the key [activePersp:undefined]. *)
Lemma no_topic_key (s : Socket) :
  query_p (handshake s) = None ->
  perspName s = None /\ perspKey s = "activePersp:undefined".
Proof. unfold perspKey, perspName. by intros ->. Qed.

(** C6, at a handshake without [p]: the name is [undefined] and the key
    [activePersp:undefined].  If the lookup of a perspective without a name
    finds nothing the socket is disconnected; if it yields a row, that
    row's namespace is ensured and the key [activePersp:undefined] is
    created at 1. *)
Lemma no_topic_connection_subscribes :
  let P1 := run Scenario.E_open
              [Arrive Scenario.no_topic; Run 0; Run 0]%nat Scenario.idle in
  let P2 := run Scenario.E_first_row
              [Arrive Scenario.no_topic; Run 0; Run 0; Run 0]%nat Scenario.idle in
  (connected <$> sockets (state P1) !! "s4" = Some false
   /\ take 3 (trace (state P1))
      = [EvGet "activePersp:undefined" None; EvFindOne None false;
         EvDisconnect "s4"])
  /\ (connected <$> sockets (state P2) !! "s4" = Some true
      /\ pool P2 = []
      /\ redis (state P2) !! "activePersp:undefined" = Some 1
      /\ trace (state P2)
         = [EvGet "activePersp:undefined" None; EvFindOne None true;
            EvEnsure "ops" 0 true; EvIncr "activePersp:undefined" 1]).
Proof. vm_compute. repeat split. Qed.

(** ** Start-up reconciliation *)

(** The chain that [setupNamespace] starts for a key never looks at the
    value it read: whenever the second segment of the key names a known
    perspective, its namespace is ensured. *)
Lemma setupNamespace_key_ignores_value
    (E : Env) (key name : string) (p : Persp) (st : State) :
  split_colon key !! 1%nat = Some name ->
  perspective_table E (Some name) = Some p ->
  let P := run E [Run 0; Run 0]%nat
             {| state := st; pool := [setupNamespace_key key] |} in
  pool P = [] /\ is_Some (nsps (state P) !! persp_name p).
Proof.
  intros Hsplit Hp. loop_exec.
  assert (Hlen : (1 <? length (split_colon key))%nat = true).
  { apply Nat.ltb_lt. by apply lookup_lt_Some in Hsplit. }
  rewrite Hlen. loop_exec. rewrite Hsplit, Hp. loop_exec.
  split; [done |]. unfold do_ensure. simpl.
  destruct (nsps st !! persp_name p) eqn:Hl; simpl.
  - rewrite Hl. eauto.
  - rewrite lookup_insert_eq. eauto.
Qed.

(** C3, at a store whose only key is [activePersp:ops] with value 0:
    reconciliation ensures the namespace of [ops] all the same. *)
Lemma reconciliation_ignores_counter :
  let P := run Scenario.E_open [Run 0; Run 0; Run 0]%nat
             (init Scenario.st_zero) in
  pool P = []
  /\ redis (state P) !! "activePersp:ops" = Some 0
  /\ nsps (state P) !! "ops" = Some 0%nat
  /\ trace (state P)
     = [EvKeys "activePersp:"; EvGet "activePersp:ops" (Some 0);
        EvFindOne (Some "ops") true; EvEnsure "ops" 0 true].
Proof. vm_compute. repeat split. Qed.

(** A stored counter of 0 is reachable: two clients of the same topic
    disconnect, both chains read 2 before either decrements. *)
Lemma zero_counter_is_reachable :
  let st := with_redis {[ "activePersp:ops" := 2 ]} empty_state in
  let P := run Scenario.E_open [Run 0; Run 1; Run 0; Run 0]%nat
             {| state := st;
                pool := [disconnect_chain Scenario.ops1;
                         disconnect_chain Scenario.ops2] |} in
  pool P = [] /\ redis (state P) !! "activePersp:ops" = Some 0.
Proof. vm_compute. repeat split. Qed.

(** ** Sockets that go away early *)

(** C4, as stated, fails: the client closes while its session is being
    looked up; the connection chain is not cancelled, it goes on to ensure
    the namespace and to create the key at 1. *)
Lemma early_close_leaves_store_counterexample :
  ~ early_close_leaves_store Scenario.E_auth Scenario.ops1 empty_state
      [] [Run 0; Run 0; Run 0; Run 0]%nat.
Proof.
  intros H.
  assert (Hno : forall v,
             EvIncr (perspKey Scenario.ops1) v
             ∉ trace (state (run Scenario.E_auth [Arrive Scenario.ops1]
                              {| state := empty_state; pool := [] |}))).
  { intros v Hin. vm_compute in Hin. by apply elem_of_nil in Hin. }
  specialize (H Hno).
  apply (f_equal (fun m : gmap string Z => m !! "activePersp:ops")) in H.
  vm_compute in H. discriminate.
Qed.

(** C4, amended: while access tokens are required, a socket that has just
    arrived is either rejected or waiting for its session; its 'disconnect'
    listener is not registered yet.  If the client closes at that point the
    close changes nothing but the socket itself: the counter store, the
    log entries and the namespaces are as before the arrival and no chain
    is started.  (The pending connection chain is not cancelled.) *)
Theorem close_in_gate_is_local (E : Env) (s : Socket) (P : Process) :
  requireAccessToken E = true ->
  let P1 := arrive E s P in
  let P2 := client_close (id s) P1 in
  redis (state P2) = redis (state P)
  /\ rtlog (state P2) = rtlog (state P)
  /\ nsps (state P2) = nsps (state P)
  /\ pool P2 = pool P1
  /\ connected <$> sockets (state P2) !! id s = Some false.
Proof.
  intros Hrat. unfold arrive, on_connection.
  destruct (negb (truthy_str (cookie (handshake s)))).
  { cbn. unfold do_disconnect. cbn. rewrite lookup_insert_eq. cbn.
    unfold client_close, do_disconnect. cbn. rewrite lookup_insert_eq. cbn.
    rewrite lookup_insert_eq, !app_nil_r. done. }
  destruct (SID_REX_exec _) as [sidMatch |].
  2: { cbn. unfold do_disconnect. cbn. rewrite lookup_insert_eq. cbn.
       unfold client_close, do_disconnect. cbn. rewrite lookup_insert_eq. cbn.
       rewrite lookup_insert_eq, !app_nil_r. done. }
  destruct (length sidMatch <? 2)%nat.
  { cbn. unfold do_disconnect. cbn. rewrite lookup_insert_eq. cbn.
    unfold client_close, do_disconnect. cbn. rewrite lookup_insert_eq. cbn.
    rewrite lookup_insert_eq, !app_nil_r. done. }
  unfold getUserFromSession. rewrite Hrat. cbn.
  unfold client_close, do_disconnect. cbn. rewrite lookup_insert_eq. cbn.
  rewrite lookup_insert_eq, !app_nil_r. done.
Qed.

Lemma close_in_gate_is_local_witness :
  let P2 := client_close "s1" (arrive Scenario.E_auth Scenario.ops1 Scenario.idle) in
  requireAccessToken Scenario.E_auth = true
  /\ redis (state P2) = ∅
  /\ connected <$> sockets (state P2) !! "s1" = Some false.
Proof.
  intros P2. split; [reflexivity |].
  pose proof (close_in_gate_is_local Scenario.E_auth Scenario.ops1 Scenario.idle
                eq_refl) as H.
  exact (conj (proj1 H) (proj2 (proj2 (proj2 (proj2 H))))).
Defined.

(** ** Namespaces are created once *)

Section Ensure_once.
Context (E : Env) (T : string).

Let K (st : State) : Prop := ensure_consistent T (nsps st) (trace st).

Lemma created_count_snoc (tr : list event) (e : event) :
  created_count T (tr ++ [e])
  = (created_count T tr + (if is_created T e then 1 else 0))%nat.
Proof.
  unfold created_count. rewrite List.filter_app, length_app. simpl.
  by destruct (is_created T e).
Qed.

Lemma K_same (st st' : State) :
  nsps st' = nsps st -> trace st' = trace st -> K st -> K st'.
Proof. unfold K. by intros -> ->. Qed.

Lemma K_neutral (st st' : State) (e : event) :
  nsps st' = nsps st ->
  trace st' = trace st ++ [e] ->
  (forall h c, e <> EvEnsure T h c) ->
  K st -> K st'.
Proof.
  unfold K, ensure_consistent. intros -> -> Hne [Hret | Hk].
  - left. apply elem_of_app. by left.
  - right. destruct (nsps st !! T) as [h |].
    + destruct Hk as [Hcount Hh]. split.
      * rewrite created_count_snoc, Hcount.
        destruct e as [| | | | | | | | t h0 c | | | | | |]; try done.
        destruct c; simpl; [| done].
        destruct (String.eqb_spec t T) as [-> | _]; [| done].
        by destruct (Hne h0 true).
      * intros h' c [Hin | Hin%list_elem_of_singleton]%elem_of_app; [by eapply Hh |].
        by destruct (Hne h' c).
    + intros h c [Hin | Hin%list_elem_of_singleton]%elem_of_app; [by eapply Hk |].
      by destruct (Hne h c).
Qed.

Lemma K_do_ensure (p : Persp) (st : State) : K st -> K (do_ensure p st).
Proof.
  intros HK. destruct (decide (persp_name p = T)) as [Heq | Hne].
  - unfold K, ensure_consistent, do_ensure in *. rewrite Heq.
    destruct HK as [Hret | Hk].
    { left. destruct (nsps st !! T); simpl; apply elem_of_app; by left. }
    right. destruct (nsps st !! T) as [h |] eqn:Hl; simpl; rewrite ?Hl.
    + destruct Hk as [Hcount Hh]. split.
      * rewrite created_count_snoc, Hcount. simpl. lia.
      * intros h' c [Hin | Hin%list_elem_of_singleton]%elem_of_app; [by eapply Hh |].
        by inversion Hin.
    + rewrite lookup_insert_eq. split.
      * rewrite created_count_snoc. simpl. rewrite String.eqb_refl.
        assert (Hz : created_count T (trace st) = 0%nat).
        { unfold created_count. clear Hl.
          induction (trace st) as [| e tr IH]; [done |].
          simpl. destruct (is_created T e) eqn:He.
          - exfalso. destruct e as [| | | | | | | | t h0 c | | | | | |]; try done.
            destruct c; [| done]. simpl in He.
            apply String.eqb_eq in He as ->.
            apply (Hk h0 true). by left.
          - apply IH. intros h c Hin. apply (Hk h c). by right. }
        rewrite Hz. done.
      * intros h' c [Hin | Hin%list_elem_of_singleton]%elem_of_app.
        { by destruct (Hk h' c). }
        by inversion Hin.
  - unfold do_ensure. destruct (nsps st !! persp_name p) as [h |] eqn:Hl.
    + eapply K_neutral; [..| exact HK]; [done | done |].
      intros h0 c Heq. inversion Heq. done.
    + unfold K, ensure_consistent in *. simpl.
      rewrite lookup_insert_ne by done.
      destruct HK as [Hret | Hk]; [left; apply elem_of_app; by left |].
      right. destruct (nsps st !! T) as [h |].
      * destruct Hk as [Hcount Hh]. split.
        -- rewrite created_count_snoc, Hcount. simpl.
           destruct (String.eqb_spec (persp_name p) T); [done | lia].
        -- intros h' c [Hin | Hin%list_elem_of_singleton]%elem_of_app; [by eapply Hh |].
           inversion Hin. done.
      * intros h c [Hin | Hin%list_elem_of_singleton]%elem_of_app; [by eapply Hk |].
        inversion Hin. done.
Qed.

Lemma K_do_retire (p : Persp) (st : State) : K st -> K (do_retire p st).
Proof.
  intros HK. unfold do_retire.
  destruct (nsps st !! persp_name p) as [h |] eqn:Hl.
  - destruct (decide (persp_name p = T)) as [Heq | Hne].
    + left. simpl. rewrite Heq. apply elem_of_app. right. by left.
    + unfold K, ensure_consistent in *. simpl.
      rewrite lookup_delete_ne by done.
      destruct HK as [Hret | Hk]; [left; apply elem_of_app; by left |].
      right. destruct (nsps st !! T) as [h0 |].
      * destruct Hk as [Hcount Hh]. split.
        -- rewrite created_count_snoc, Hcount. simpl. lia.
        -- intros h' c [Hin | Hin%list_elem_of_singleton]%elem_of_app; [by eapply Hh |].
           inversion Hin.
      * intros h0 c [Hin | Hin%list_elem_of_singleton]%elem_of_app; [by eapply Hk |].
        inversion Hin.
  - eapply K_neutral; [..| exact HK]; done.
Qed.

Lemma K_do_disconnect (s : string) (st : State) : K st -> K (do_disconnect s st).1.
Proof.
  intros HK. unfold do_disconnect.
  destruct (sockets st !! s) as [ss |]; [| done].
  destruct (connected ss); [| done].
  simpl. eapply K_neutral; [..| exact HK]; done.
Qed.

Lemma K_do_on_disconnect (s : string) (h : prog) (st : State) :
  K st -> K (do_on_disconnect s h st).
Proof.
  intros HK. unfold do_on_disconnect.
  destruct (sockets st !! s) as [ss |]; [| done].
  eapply K_same; [..| exact HK]; done.
Qed.

Lemma K_settle (p : prog) : forall st, K st -> K (settle p st).1.
Proof.
  induction p as [| | key k IH | key k IH | key k IH | key k IH | pre k IH
                 | sid k IH | name k IH | s k IH | s k IH | s v k IH
                 | p k IH | p k IH | s k IH | s h IHh k IH | d k IH
                 | q IHq k IH]; intros st HK; simpl; try done.
  - eapply K_neutral; [..| exact HK]; done.
  - apply IH. eapply K_neutral; [..| exact HK]; done.
  - apply IH. by apply K_do_ensure.
  - apply IH. by apply K_do_retire.
  - pose proof (K_do_disconnect s st HK) as H1.
    destruct (do_disconnect s st) as [st1 l1]. simpl in H1.
    specialize (IH st1 H1). destruct (settle k st1) as [st2 l2]. done.
  - apply IH. by apply K_do_on_disconnect.
  - apply IH. eapply K_neutral; [..| exact HK]; done.
  - specialize (IHq st HK). destruct (settle q st) as [st1 l1]. simpl in IHq.
    specialize (IH st1 IHq). destruct (settle k st1) as [st2 l2]. done.
Qed.

Lemma K_step_task (p : prog) (st : State) : K st -> K (step_task E p st).1.
Proof.
  intros HK.
  destruct p; try exact (K_settle _ st HK);
    unfold step_task, do_get, do_incr, do_decr, do_del, do_keys;
    apply K_settle; (eapply K_neutral; [..| exact HK]; done).
Qed.

Lemma K_sched_step (x : sched_item) (P : Process) :
  K (state P) -> K (state (sched_step E x P)).
Proof.
  intros HK. destruct x as [i | s | s]; simpl.
  - unfold run_at. destruct (pool P !! i) as [p |]; [| done].
    pose proof (K_step_task p (state P) HK) as H.
    by destruct (step_task E p (state P)).
  - unfold arrive.
    match goal with |- context [settle ?p ?st0] =>
      assert (H : K (settle p st0).1)
        by (apply K_settle; eapply K_same; [..| exact HK]; done);
      by destruct (settle p st0)
    end.
  - unfold client_close. pose proof (K_do_disconnect s (state P) HK) as H.
    by destruct (do_disconnect s (state P)).
Qed.

Lemma K_run (sched : list sched_item) :
  forall P, K (state P) -> K (state (run E sched P)).
Proof.
  induction sched as [| x sched IH]; intros P HK; [done |].
  simpl. apply IH. by apply K_sched_step.
Qed.

End Ensure_once.

(** C7: in one process, however the loop interleaves the pending chains,
    arrivals and departures, if the channel of [T] does not exist at the
    start and is not retired on the way, then any two ensure calls for [T]
    (two first subscribers that both read an absent counter make one each)
    return the same handle, the one the registry holds, and the channel was
    constructed exactly once. *)
Theorem concurrent_ensure_creates_once
    (E : Env) (T : string) (sched : list sched_item) (P0 : Process) :
  nsps (state P0) !! T = None ->
  (forall h c, EvEnsure T h c ∉ trace (state P0)) ->
  let P := run E sched P0 in
  EvRetire T true ∉ trace (state P) ->
  forall (i j : nat) h1 c1 h2 c2,
    (i < j)%nat ->
    trace (state P) !! i = Some (EvEnsure T h1 c1) ->
    trace (state P) !! j = Some (EvEnsure T h2 c2) ->
    h1 = h2
    /\ nsps (state P) !! T = Some h1
    /\ created_count T (trace (state P)) = 1%nat.
Proof.
  intros Hnone Hfresh P Hret i j h1 c1 h2 c2 _ Hi Hj.
  assert (H0 : ensure_consistent T (nsps (state P0)) (trace (state P0))).
  { right. by rewrite Hnone. }
  pose proof (K_run E T sched P0 H0) as [Hbad | HK]; [done |].
  fold P in HK.
  apply list_elem_of_lookup_2 in Hi, Hj.
  destruct (nsps (state P) !! T) as [h |].
  - destruct HK as [Hcount Hh].
    rewrite (Hh _ _ Hi), (Hh _ _ Hj). done.
  - by destruct (HK h1 c1).
Qed.

Lemma concurrent_ensure_creates_once_witness :
  let P := run Scenario.E_open
             [Arrive Scenario.ops1; Arrive Scenario.ops2;
              Run 0; Run 1; Run 0; Run 1; Run 0; Run 0]%nat Scenario.idle in
  trace (state P) !! 3%nat = Some (EvEnsure "ops" 0 true)
  /\ trace (state P) !! 5%nat = Some (EvEnsure "ops" 0 false)
  /\ nsps (state P) !! "ops" = Some 0%nat
  /\ created_count "ops" (trace (state P)) = 1%nat.
Proof.
  intros P.
  assert (H3 : trace (state P) !! 3%nat = Some (EvEnsure "ops" 0 true))
    by (vm_compute; reflexivity).
  assert (H5 : trace (state P) !! 5%nat = Some (EvEnsure "ops" 0 false))
    by (vm_compute; reflexivity).
  assert (Hfresh : forall h c, EvEnsure "ops" h c ∉ trace (state Scenario.idle))
    by (intros h c Hin; simpl in Hin; by apply elem_of_nil in Hin).
  assert (Hret : EvRetire "ops" true ∉ trace (state P)).
  { apply (bool_decide_unpack _). vm_compute. reflexivity. }
  pose proof (concurrent_ensure_creates_once Scenario.E_open "ops" _
                Scenario.idle eq_refl Hfresh Hret 3%nat 5%nat _ _ _ _
                ltac:(lia) H3 H5) as H.
  exact (conj H3 (conj H5 (proj2 H))).
Defined.

(** ** A first client of a topic that persistent storage does not know *)

Section Missing_topic.
Context (E : Env) (s : Socket).
Hypothesis Hmissing : perspective_table E (perspName s) = None.

Let is_listener (h : prog) : Prop := h = on_disconnect E s.

(** What a turn of the loop for one of the socket's chains leaves behind:
    chains of the same socket, the counters and the namespaces as they
    were, the socket's listeners still of the one kind. *)
Let step_ok (st1 st2 : State) (new : list prog) (sgs : list stage)
    (ss2 : SocketState) : Prop :=
  new = stage_prog E s <$> sgs
  /\ redis st2 = redis st1 /\ nsps st2 = nsps st1
  /\ sockets st2 !! id s = Some ss2
  /\ Forall is_listener (listeners ss2).

Lemma listeners_spawn (l : list prog) :
  Forall is_listener l ->
  l = stage_prog E s <$> replicate (length l) SListener.
Proof.
  intros Hl. rewrite fmap_replicate.
  induction Hl as [| h l -> _ IH]; [done |].
  change (length (on_disconnect E s :: l)) with (S (length l)).
  change (replicate (S (length l)) (stage_prog E s SListener))
    with (on_disconnect E s :: replicate (length l) (stage_prog E s SListener)).
  by rewrite <- IH.
Qed.

Lemma total_weight_listeners (n : nat) :
  total_weight (replicate n SListener) = (6 * n)%nat.
Proof.
  unfold total_weight. induction n as [| n IH]; [done |].
  change (sum_list_with weight (replicate (S n) SListener))
    with (6 + sum_list_with weight (replicate n SListener))%nat.
  rewrite IH. lia.
Qed.

Lemma on_error_settle (st1 : State) (ss : SocketState) :
  sockets st1 !! id s = Some ss ->
  Forall is_listener (listeners ss) ->
  exists st2 new sgs ss2,
    settle (on_error s) st1 = (st2, new)
    /\ step_ok st1 st2 new sgs ss2
    /\ connected ss2 = false
    /\ (total_weight sgs + listener_weight ss2 <= listener_weight ss)%nat.
Proof.
  intros Hs Hl. unfold on_error. simpl. unfold do_disconnect. rewrite Hs.
  destruct (connected ss) eqn:Hc.
  - eexists _, _, (replicate (length (listeners ss)) SListener),
      {| connected := false; listeners := listeners ss |}.
    split; [reflexivity |]. rewrite app_nil_r. split; [| split].
    + split; [by apply listeners_spawn |].
      simpl. rewrite lookup_insert_eq. done.
    + done.
    + rewrite total_weight_listeners. unfold listener_weight. rewrite Hc.
      simpl. lia.
  - eexists _, _, [], ss. repeat split; done.
Qed.

Lemma admitted_settle (st1 : State) (ss : SocketState) (user : string) :
  sockets st1 !! id s = Some ss ->
  Forall is_listener (listeners ss) ->
  exists st2 new sgs ss2,
    settle (try_catch (admitted E s user) (on_error s)) st1 = (st2, new)
    /\ step_task E (try_catch (admitted E s user) (on_error s)) st1 = (st2, new)
    /\ step_ok st1 st2 new sgs ss2
    /\ (connected ss2 = true -> existsb is_chain sgs = true)
    /\ (total_weight sgs + listener_weight ss2 <= 8 + listener_weight ss)%nat.
Proof.
  intros Hs Hl. unfold admitted.
  destruct (isIpWhitelisted E _ _).
  - destruct (logEnabled E);
      cbn -[perspKey perspName on_error on_disconnect subscribe];
      unfold do_on_disconnect; cbn -[perspKey perspName on_error on_disconnect subscribe];
      rewrite Hs;
      (eexists _, _, [SSub],
         {| connected := connected ss;
            listeners := listeners ss ++ [on_disconnect E s] |};
       split; [reflexivity |]; split; [reflexivity |];
       split; [| split; [done |]];
       [ split; [done |]; simpl; rewrite lookup_insert_eq;
         repeat split; try done; apply Forall_app; split; [done |];
         by apply Forall_singleton
       | unfold listener_weight, total_weight; simpl;
         destruct (connected ss); rewrite ?length_app; simpl; lia ]).
  - destruct (on_error_settle st1 ss Hs Hl)
      as (st2 & new & sgs & ss2 & Hset & Hok & Hc & Hw).
    exists st2, new, sgs, ss2. change (try_catch Throw (on_error s)) with (on_error s).
    split; [done |]. split; [done |]. split; [done |].
    split; [by rewrite Hc | lia].
Qed.

Ltac chain_exec :=
  cbn -[perspKey perspName on_error on_disconnect subscribe first_client
        disconnect_chain teardown retire_lookup printRealtimeLogs admitted].

(** One turn of the loop for a chain of the socket, in a state where the
    key of its topic is absent. *)
Lemma stage_step (sg : stage) (st1 : State) (ss : SocketState) :
  redis st1 !! perspKey s = None ->
  sockets st1 !! id s = Some ss ->
  Forall is_listener (listeners ss) ->
  exists st2 new sgs ss2,
    step_task E (stage_prog E s sg) st1 = (st2, new)
    /\ step_ok st1 st2 new sgs ss2
    /\ (if is_chain sg
        then connected ss2 = true -> existsb is_chain sgs = true
        else ss2 = ss)
    /\ (total_weight sgs + listener_weight ss2 < weight sg + listener_weight ss)%nat.
Proof.
  intros Hkey Hs Hl. destruct sg as [sid | | | | | | | |].
  - (* waiting for the session *)
    unfold stage_prog, getUserFromSession. destruct (requireAccessToken E).
    + chain_exec.
      set (st' := emit (EvSessionGet sid) st1).
      assert (Hs' : sockets st' !! id s = Some ss) by done.
      destruct (session_store E sid) as [| name].
      * destruct (on_error_settle st' ss Hs' Hl)
          as (st2 & new & sgs & ss2 & Hset & Hok & Hc & Hw).
        exists st2, new, sgs, ss2. split; [done |]. split; [done |].
        simpl. split; [by rewrite Hc | lia].
      * destruct (truthy_str name).
        -- destruct (admitted_settle st' ss (default "" name) Hs' Hl)
             as (st2 & new & sgs & ss2 & Hset & _ & Hok & Hc & Hw).
           exists st2, new, sgs, ss2. split; [done |]. split; [done |].
           simpl. split; [done | lia].
        -- destruct (on_error_settle st' ss Hs' Hl)
             as (st2 & new & sgs & ss2 & Hset & Hok & Hc & Hw).
           exists st2, new, sgs, ss2. split; [done |]. split; [done |].
           simpl. split; [by rewrite Hc | lia].
    + destruct (admitted_settle st1 ss "" Hs Hl)
        as (st2 & new & sgs & ss2 & _ & Hstep & Hok & Hc & Hw).
      exists st2, new, sgs, ss2. split; [done |]. split; [done |].
      simpl. split; [done | lia].
  - (* waiting for the counter *)
    unfold stage_prog, subscribe. chain_exec. rewrite Hkey. chain_exec.
    eexists _, _, [SFirst], ss. split; [reflexivity |].
    split; [done |]. split; [done |]. unfold total_weight. simpl. lia.
  - (* waiting for the perspective *)
    unfold stage_prog, first_client. chain_exec. rewrite Hmissing. chain_exec.
    set (st' := emit (EvFindOne (perspName s) false) st1).
    assert (Hs' : sockets st' !! id s = Some ss) by done.
    destruct (on_error_settle st' ss Hs' Hl)
      as (st2 & new & sgs & ss2 & Hset & Hok & Hc & Hw).
    exists st2, new, sgs, ss2. split; [done |]. split; [done |].
    simpl. split; [by rewrite Hc | lia].
  - (* the listener starts *)
    unfold stage_prog, on_disconnect. destruct (logEnabled E).
    + eexists _, _, [SDisc; SLog], ss. split; [reflexivity |].
      split; [done |]. split; [done |]. unfold total_weight. simpl. lia.
    + eexists _, _, [SDisc], ss. split; [reflexivity |].
      split; [done |]. split; [done |]. unfold total_weight. simpl. lia.
  - unfold stage_prog, disconnect_chain. chain_exec. rewrite Hkey. chain_exec.
    eexists _, _, [STear], ss. split; [reflexivity |].
    split; [done |]. split; [done |]. unfold total_weight. simpl. lia.
  - unfold stage_prog, teardown. chain_exec.
    eexists _, _, [SLook], ss. split; [reflexivity |]. split; [| split; [done |]].
    + split; [done |]. simpl. split; [by apply delete_id |]. done.
    + unfold total_weight. simpl. lia.
  - unfold stage_prog, retire_lookup. chain_exec. rewrite Hmissing. chain_exec.
    eexists _, _, [], ss. split; [reflexivity |].
    split; [done |]. split; [done |]. unfold total_weight. simpl. lia.
  - unfold stage_prog, printRealtimeLogs. chain_exec.
    destruct (rtlog st1 !! id s); chain_exec;
      (eexists _, _, [SLogDel], ss; split; [reflexivity |];
       split; [done |]; split; [done |]; unfold total_weight; simpl; lia).
  - unfold stage_prog. chain_exec.
    eexists _, _, [], ss. split; [reflexivity |].
    split; [done |]. split; [done |]. unfold total_weight. simpl. lia.
Qed.

(** The invariant of the attempt: every pending chain belongs to the
    socket, the counters and namespaces are those of [st0], while the
    socket is connected its connection chain is still pending, and at most
    [n] turns are left. *)
Let Inv (st0 : State) (n : nat) (P : Process) : Prop :=
  exists sgs ss,
    pool P = stage_prog E s <$> sgs
    /\ redis (state P) = redis st0 /\ nsps (state P) = nsps st0
    /\ sockets (state P) !! id s = Some ss
    /\ Forall is_listener (listeners ss)
    /\ (connected ss = true -> existsb is_chain sgs = true)
    /\ (total_weight sgs + listener_weight ss <= n)%nat.

Lemma existsb_replace (sgs new : list stage) (i : nat) (sg : stage) :
  sgs !! i = Some sg ->
  is_chain sg = false ->
  existsb is_chain sgs = true ->
  existsb is_chain (take i sgs ++ new ++ drop (S i) sgs) = true.
Proof.
  intros Hi Hsg Hex. rewrite <- (take_drop_middle sgs i sg Hi) in Hex.
  rewrite existsb_app in Hex. simpl in Hex. rewrite Hsg in Hex. simpl in Hex.
  rewrite !existsb_app. apply orb_true_iff in Hex as [-> | ->]; [done |].
  by rewrite !orb_true_r.
Qed.

Lemma total_weight_replace (sgs new : list stage) (i : nat) (sg : stage) :
  sgs !! i = Some sg ->
  (total_weight (take i sgs ++ new ++ drop (S i) sgs) + weight sg
   = total_weight sgs + total_weight new)%nat.
Proof.
  intros Hi. unfold total_weight.
  rewrite <- (take_drop_middle sgs i sg Hi) at 3.
  rewrite !sum_list_with_app. simpl. lia.
Qed.

Lemma Inv_weaken (st0 : State) (n m : nat) (P : Process) :
  (n <= m)%nat -> Inv st0 n P -> Inv st0 m P.
Proof.
  intros Hnm (sgs & ss & H1 & H2 & H3 & H4 & H5 & H6 & H7).
  exists sgs, ss. repeat split; try done. lia.
Qed.

Lemma run_at_idle (i : nat) (P : Process) :
  pool P !! i = None -> run_at E i P = P.
Proof. unfold run_at. by intros ->. Qed.

Lemma Inv_run_at (st0 : State) (n i : nat) (P : Process) :
  redis st0 !! perspKey s = None ->
  is_Some (pool P !! i) ->
  Inv st0 (S n) P -> Inv st0 n (run_at E i P).
Proof.
  intros Hkey Hsome (sgs & ss & Hpool & Hredis & Hnsps & Hs & Hl & Hc & Hw).
  unfold run_at. rewrite Hpool, list_lookup_fmap in Hsome |- *.
  destruct (sgs !! i) as [sg |] eqn:Hi; simpl in *; [| by destruct Hsome].
  assert (Hkey' : redis (state P) !! perspKey s = None) by (by rewrite Hredis).
  destruct (stage_step sg (state P) ss Hkey' Hs Hl)
    as (st2 & new & sgs' & ss2 & Hstep
        & (Hnew & Hr2 & Hn2 & Hs2 & Hl2) & Hchain & Hw2).
  rewrite Hstep. exists (take i sgs ++ sgs' ++ drop (S i) sgs), ss2. simpl.
  split. { by rewrite Hnew, !fmap_app, fmap_take, fmap_drop. }
  split; [congruence |]. split; [congruence |]. split; [done |]. split; [done |].
  split.
  - intros Hcon. destruct (is_chain sg) eqn:Hsg.
    + rewrite !existsb_app, (Hchain Hcon). by rewrite orb_true_r.
    + subst ss2. exact (existsb_replace sgs sgs' i sg Hi Hsg (Hc Hcon)).
  - pose proof (total_weight_replace sgs sgs' i sg Hi). lia.
Qed.

Lemma Inv_arrive (st0 : State) :
  Inv st0 9 (arrive E s {| state := st0; pool := [] |}).
Proof.
  unfold arrive. simpl.
  set (ss0 := {| connected := true; listeners := [] |}).
  set (st' := with_sockets (<[id s := ss0]> (sockets st0)) st0).
  assert (Hs' : sockets st' !! id s = Some ss0) by apply lookup_insert_eq.
  assert (Hl' : Forall is_listener (listeners ss0)) by constructor.
  assert (Hrej : Inv st0 9 (let '(st, new) := settle (on_error s) st' in
                            {| state := st; pool := new |})).
  { destruct (on_error_settle st' ss0 Hs' Hl')
      as (st2 & new & sgs & ss2 & Hset & (Hnew & Hr2 & Hn2 & Hs2 & Hl2) & Hc & Hw).
    rewrite Hset. exists sgs, ss2. simpl. repeat split; try done.
    - by rewrite Hc.
    - unfold listener_weight in Hw at 2. simpl in Hw. lia. }
  unfold on_connection. destruct (negb _); [exact Hrej |].
  destruct (SID_REX_exec _) as [sidMatch |]; [| exact Hrej].
  destruct (length sidMatch <? 2)%nat; [exact Hrej |].
  cbv zeta. set (sid := default "" (sidMatch !! 1%nat)).
  destruct (requireAccessToken E) eqn:Hrat.
  - exists [SAuth sid], ss0. unfold getUserFromSession. rewrite Hrat.
    simpl. unfold getUserFromSession. rewrite Hrat.
    repeat split; done.
  - unfold getUserFromSession. rewrite Hrat.
    destruct (admitted_settle st' ss0 "" Hs' Hl')
      as (st2 & new & sgs & ss2 & Hset & _
          & (Hnew & Hr2 & Hn2 & Hs2 & Hl2) & Hc & Hw).
    rewrite Hset. exists sgs, ss2. repeat split; try done.
    unfold listener_weight in Hw at 2. simpl in Hw. lia.
Qed.

Lemma Inv_run (st0 : State) (sched : list nat) :
  redis st0 !! perspKey s = None ->
  forall n P, Inv st0 n P -> Inv st0 n (run E (Run <$> sched) P).
Proof.
  intros Hkey. induction sched as [| i sched IH]; intros n P HP; [done |].
  simpl. apply IH. destruct (pool P !! i) as [p |] eqn:Hi.
  - destruct n as [| n].
    + destruct HP as (sgs & ss & Hpool & _ & _ & _ & _ & _ & Hw).
      rewrite Hpool, list_lookup_fmap in Hi.
      destruct (sgs !! i) as [sg |] eqn:Hsg; [| done].
      pose proof (total_weight_replace sgs [] i sg Hsg) as Hrep.
      destruct sg; simpl in Hrep; lia.
    + apply (Inv_weaken st0 n (S n)); [lia |]. by apply Inv_run_at.
  - by rewrite (run_at_idle i P Hi).
Qed.

Lemma Inv_quiescent (st0 : State) (n : nat) (P : Process) :
  Inv st0 n P ->
  redis (state P) = redis st0
  /\ nsps (state P) = nsps st0
  /\ (pool P = [] -> connected <$> sockets (state P) !! id s = Some false).
Proof.
  intros (sgs & ss & Hpool & Hredis & Hnsps & Hs & Hl & Hc & _).
  split; [done |]. split; [done |]. intros Hnil.
  rewrite Hnil in Hpool. symmetry in Hpool. apply fmap_nil_inv in Hpool as ->.
  rewrite Hs. simpl. destruct (connected ss); [| done].
  by specialize (Hc eq_refl).
Qed.

(** Serving the first pending chain again and again empties the pool
    within the bound of the invariant. *)
Lemma Inv_drains (st0 : State) :
  redis st0 !! perspKey s = None ->
  forall n P, Inv st0 n P -> pool (run E (replicate n (Run 0%nat)) P) = [].
Proof.
  intros Hkey. induction n as [| n IH]; intros P HP.
  - destruct HP as (sgs & ss & Hpool & _ & _ & _ & _ & _ & Hw).
    simpl. rewrite Hpool. destruct sgs as [| sg sgs]; [done |].
    unfold total_weight in Hw. simpl in Hw. destruct sg; simpl in Hw; lia.
  - change (replicate (S n) (Run 0%nat)) with (Run 0%nat :: replicate n (Run 0%nat)).
    simpl. apply IH. destruct (pool P !! 0%nat) as [p |] eqn:Hi.
    + by apply Inv_run_at.
    + rewrite (run_at_idle 0%nat P Hi).
      destruct HP as (sgs & ss & Hpool & H2 & H3 & H4 & H5 & Hc & Hw).
      rewrite Hpool in Hi. destruct sgs as [| sg sgs]; [| done].
      exists [], ss. repeat split; try done.
      unfold listener_weight. destruct (connected ss); [| simpl; lia].
      by specialize (Hc eq_refl).
Qed.
End Missing_topic.

(** C1, as stated, fails: the counter of [ghost] is already 1 while
    persistent storage does not know the topic; the chain finds the key,
    only increments it, and the socket stays connected with the counter
    at 2. *)
Lemma rejects_missing_topic_counterexample :
  ~ rejects_missing_topic Scenario.E_open Scenario.ghost Scenario.st_ghost
      [Run 0; Run 0]%nat.
Proof.
  intros H. specialize (H eq_refl eq_refl).
  destruct H as [H _]. vm_compute in H. discriminate.
Qed.

(** C1, amended: when persistent storage does not know the topic and the
    key of its counter is absent, the attempt leaves the counter store and
    the namespaces untouched at every point of every schedule (the
    perspective is looked up before any increment, so there is nothing to
    compensate), the socket is disconnected once no chain is pending, and
    that point is reached within nine turns of the loop. *)
Theorem missing_topic_first_client_is_rejected (E : Env) (s : Socket) (st : State) :
  perspective_table E (perspName s) = None ->
  redis st !! perspKey s = None ->
  let P0 := arrive E s {| state := st; pool := [] |} in
  (forall sched : list nat,
     let P := run E (Run <$> sched) P0 in
     redis (state P) = redis st
     /\ nsps (state P) = nsps st
     /\ (pool P = [] -> connected <$> sockets (state P) !! id s = Some false))
  /\ pool (run E (replicate 9 (Run 0%nat)) P0) = [].
Proof.
  intros Hmissing Hkey P0. split.
  - intros sched P. apply (Inv_quiescent E s st 9).
    apply Inv_run; [done | done |]. by apply Inv_arrive.
  - apply (Inv_drains E s Hmissing st Hkey). by apply Inv_arrive.
Qed.

Lemma missing_topic_first_client_is_rejected_witness :
  let P := run Scenario.E_open (replicate 9 (Run 0%nat))
             (arrive Scenario.E_open Scenario.ghost Scenario.idle) in
  perspective_table Scenario.E_open (perspName Scenario.ghost) = None
  /\ redis empty_state !! perspKey Scenario.ghost = None
  /\ pool P = []
  /\ redis (state P) = ∅
  /\ connected <$> sockets (state P) !! "s3" = Some false.
Proof.
  intros P.
  pose proof (missing_topic_first_client_is_rejected
                Scenario.E_open Scenario.ghost empty_state eq_refl eq_refl)
    as [Hall Hend].
  destruct (Hall (replicate 9 0%nat)) as (Hr & _ & Hc).
  split; [reflexivity |]. split; [reflexivity |].
  split; [exact Hend |]. split; [exact Hr |]. exact (Hc Hend).
Defined.

(** ** The cookie pattern *)

Lemma group_then_dot_app (sessid rest : string) :
  exists g, group_then_dot (sessid +:+ "." +:+ rest) = Some g.
Proof.
  induction sessid as [| c sessid [g IH]].
  - by exists "".
  - change (String c sessid +:+ "." +:+ rest)
      with (String c (sessid +:+ "." +:+ rest)).
    cbn [group_then_dot]. destruct (Ascii.eqb c "."); [by exists "" |].
    rewrite IH. by eexists.
Qed.

(** A cookie header that contains a field of the form
    [connect.sid=s%3A<id>.<signature>] has a match. *)
Lemma SID_REX_accepts_field (before sessid rest : string) :
  is_Some (SID_REX_exec (before +:+ "connect.sid=s%3A" +:+ sessid +:+ "." +:+ rest)).
Proof.
  induction before as [| c before IH].
  - destruct (group_then_dot_app sessid rest) as [g Hg].
    change ("" +:+ "connect.sid=s%3A" +:+ sessid +:+ "." +:+ rest)
      with (String "c" (String "o" (String "n" (String "n" (String "e"
             (String "c" (String "t" (String "." (String "s" (String "i"
             (String "d" (String "=" (String "s" (String "%" (String "3"
             (String "A" (sessid +:+ "." +:+ rest))))))))))))))))).
    unfold SID_REX_exec, SID_REX_at.
    cbn [strip_prefix Ascii.eqb Bool.eqb is_line_terminator orb].
    rewrite Hg. by eexists.
  - change (String c before +:+ "connect.sid=s%3A" +:+ sessid +:+ "." +:+ rest)
      with (String c (before +:+ "connect.sid=s%3A" +:+ sessid +:+ "." +:+ rest)).
    cbn [SID_REX_exec]. destruct (SID_REX_at _); [by eexists | exact IH].
Qed.

(** The unescaped dot: any character may stand between [connect] and
    [sid], and the signature may be empty. *)
Lemma SID_REX_wildcard :
  SID_REX_exec "connectXsid=s%3Aabc." = Some ["connectXsid=s%3Aabc."; "abc"].
Proof. reflexivity. Qed.
(** * Further properties of the real-time code *)

Lemma run_cons (E : Env) (x : sched_item) (l : list sched_item) (P : Process) :
  run E (x :: l) P = run E l (sched_step E x P).
Proof. reflexivity. Qed.

Lemma run_app (E : Env) (l1 l2 : list sched_item) (P : Process) :
  run E (l1 ++ l2) P = run E l2 (run E l1 P).
Proof. unfold run. apply foldl_app. Qed.

(** What the callback of the session lookup leaves behind when the address
    is accepted: the log entry (if logging is on), the registered listener
    and the pending subscription chain. *)
Lemma settle_admitted (E : Env) (s : Socket) (user : string)
    (st : State) (ss : SocketState) :
  address_check E s = true ->
  sockets st !! id s = Some ss ->
  exists st2,
    settle (try_catch (admitted E s user) (on_error s)) st
    = (st2, [try_catch (subscribe s) (on_error s)])
    /\ step_task E (try_catch (admitted E s user) (on_error s)) st
       = (st2, [try_catch (subscribe s) (on_error s)])
    /\ redis st2 = redis st /\ nsps st2 = nsps st /\ nsp_count st2 = nsp_count st
    /\ sockets st2
       = <[id s := {| connected := connected ss;
                      listeners := listeners ss ++ [on_disconnect E s] |}]>
           (sockets st)
    /\ rtlog st2
       = (if logEnabled E then <[id s := toLog s user]> (rtlog st) else rtlog st)
    /\ trace st2
       = trace st ++ (if logEnabled E then [EvLogSet (id s)] else []).
Proof.
  intros Hip Hs. unfold admitted. unfold address_check in Hip. rewrite Hip.
  destruct (logEnabled E);
    cbn -[perspKey perspName on_error on_disconnect subscribe];
    unfold do_on_disconnect;
    cbn -[perspKey perspName on_error on_disconnect subscribe];
    rewrite Hs; eexists; (split; [reflexivity |]); (split; [reflexivity |]);
    cbn; rewrite ?app_nil_r; done.
Qed.




Ltac simp_loop :=
  cbn -[run perspKey perspName Nat.ltb split_colon on_disconnect].


Lemma arrive_auth (E : Env) (s : Socket) (P : Process) (whole sid : string) :
  requireAccessToken E = true ->
  truthy_str (cookie (handshake s)) = true ->
  SID_REX_exec (default "" (cookie (handshake s))) = Some [whole; sid] ->
  arrive E s P
  = {| state :=
         with_sockets
           (<[id s := {| connected := true; listeners := [] |}]>
              (sockets (state P))) (state P);
       pool := pool P
               ++ [try_catch (getUserFromSession E sid (admitted E s)) (on_error s)] |}.
Proof.
  intros Hrat Hc Hm. unfold arrive, on_connection. rewrite Hc, Hm.
  cbn -[admitted on_error]. unfold getUserFromSession. rewrite Hrat. reflexivity.
Qed.

(** X3: when access tokens are required and the session store reports an
    error, has no session, or the session carries no user name (or an empty
    one), the socket is disconnected as soon as the store replies: no
    listener is registered and neither counters, log entries nor namespaces
    change. *)
Theorem invalid_session_is_rejected
    (E : Env) (s : Socket) (P0 : Process) (whole sid : string) :
  requireAccessToken E = true ->
  truthy_str (cookie (handshake s)) = true ->
  SID_REX_exec (default "" (cookie (handshake s))) = Some [whole; sid] ->
  match session_store E sid with
  | SessionErr => True
  | SessionData name => truthy_str name = false
  end ->
  pool P0 = [] ->
  let P1 := run E [Arrive s; Run 0%nat] P0 in
  pool P1 = []
  /\ redis (state P1) = redis (state P0)
  /\ rtlog (state P1) = rtlog (state P0)
  /\ nsps (state P1) = nsps (state P0)
  /\ sockets (state P1) !! id s = Some {| connected := false; listeners := [] |}
  /\ trace (state P1)
     = trace (state P0) ++ [EvSessionGet sid; EvDisconnect (id s)].
Proof.
  intros Hrat Hc Hm Hsess Hpool P1. subst P1.
  rewrite run_cons. change (sched_step E (Arrive s) P0) with (arrive E s P0).
  rewrite (arrive_auth E s P0 whole sid Hrat Hc Hm), Hpool.
  unfold getUserFromSession. rewrite Hrat.
  cbn -[admitted]. unfold run_at. cbn -[admitted].
  destruct (session_store E sid) as [| name].
  - cbn. unfold do_disconnect. cbn. rewrite lookup_insert_eq. cbn.
    rewrite lookup_insert_eq, <- app_assoc. done.
  - rewrite Hsess. cbn. unfold do_disconnect. cbn. rewrite lookup_insert_eq. cbn.
    rewrite lookup_insert_eq, <- app_assoc. done.
Qed.

(** X4: when the address check rejects the socket, it is disconnected
    before the log entry is written and before the 'disconnect' listener is
    registered, whether or not a session had to be looked up first. *)
Theorem unlisted_address_is_rejected
    (E : Env) (s : Socket) (P0 : Process) (whole sid : string) :
  truthy_str (cookie (handshake s)) = true ->
  SID_REX_exec (default "" (cookie (handshake s))) = Some [whole; sid] ->
  (requireAccessToken E = true ->
   exists name, session_store E sid = SessionData (Some name) /\ name <> "") ->
  address_check E s = false ->
  pool P0 = [] ->
  let P1 := run E [Arrive s; Run 0%nat] P0 in
  pool P1 = []
  /\ redis (state P1) = redis (state P0)
  /\ rtlog (state P1) = rtlog (state P0)
  /\ nsps (state P1) = nsps (state P0)
  /\ sockets (state P1) !! id s = Some {| connected := false; listeners := [] |}
  /\ EvLogSet (id s) ∉ drop (length (trace (state P0))) (trace (state P1)).
Proof.
  intros Hc Hm Hsess Hip Hpool P1. subst P1.
  rewrite run_cons. change (sched_step E (Arrive s) P0) with (arrive E s P0).
  destruct (requireAccessToken E) eqn:Hrat.
  - destruct (Hsess eq_refl) as (name & Hname & Hne).
    rewrite (arrive_auth E s P0 whole sid Hrat Hc Hm), Hpool.
    unfold getUserFromSession. rewrite Hrat.
    cbn -[admitted]. unfold run_at. cbn -[admitted]. rewrite Hname.
    assert (Ht : truthy_str (Some name) = true).
    { simpl. destruct (String.eqb_spec name ""); done. }
    rewrite Ht. rewrite (admitted_address_check E s _ Hip).
    cbn. unfold do_disconnect. cbn. rewrite lookup_insert_eq. cbn.
    rewrite lookup_insert_eq, <- app_assoc, drop_app_length.
    repeat split; try done. set_solver.
  - unfold arrive, on_connection. rewrite Hc, Hm.
    cbn -[admitted]. unfold getUserFromSession. rewrite Hrat.
    rewrite (admitted_address_check E s _ Hip), Hpool.
    cbn. unfold do_disconnect. cbn. rewrite lookup_insert_eq. cbn.
    unfold run_at. cbn.
    rewrite lookup_insert_eq, drop_app_length.
    repeat split; try done. set_solver.
Qed.

(** X5: with activity logs on, admission stores under the socket id the
    address, the user name taken from the session and the perspective; on
    disconnect [printRealtimeLogs] reads that entry back, prints it and
    deletes the key, independently of the counter chains. *)
Theorem activity_log_round_trip
    (E : Env) (s : Socket) (P0 : Process) (whole sid name : string) :
  requireAccessToken E = true ->
  logEnabled E = true ->
  truthy_str (cookie (handshake s)) = true ->
  SID_REX_exec (default "" (cookie (handshake s))) = Some [whole; sid] ->
  session_store E sid = SessionData (Some name) ->
  name <> "" ->
  address_check E s = true ->
  pool P0 = [] ->
  let P1 := run E [Arrive s; Run 0%nat] P0 in
  let P2 := run E [ClientClose (id s); Run 1%nat; Run 2%nat; Run 2%nat] P1 in
  rtlog (state P1) = <[id s := toLog s name]> (rtlog (state P0))
  /\ rtlog (state P2) = delete (id s) (rtlog (state P0))
  /\ redis (state P2) = redis (state P0)
  /\ trace (state P2)
     = trace (state P0)
       ++ [EvSessionGet sid; EvLogSet (id s); EvDisconnect (id s);
           EvLogGet (id s); EvPrint (toLog s name); EvLogDel (id s)].
Proof.
  intros Hrat Hlog Hc Hm Hsess Hne Hip Hpool P1 P2.
  assert (Ht : truthy_str (Some name) = true).
  { simpl. destruct (String.eqb_spec name ""); done. }
  set (st0 := with_sockets
                (<[id s := {| connected := true; listeners := [] |}]>
                   (sockets (state P0))) (state P0)).
  destruct (settle_admitted E s name (emit (EvSessionGet sid) st0)
              {| connected := true; listeners := [] |} Hip)
    as (st2 & Hset & _ & Hr & Hn & Hnc & Hso & Hl & Htr);
    [apply lookup_insert_eq |].
  rewrite Hlog in Hl, Htr. cbn in Hr, Hn, Hnc, Hso, Hl, Htr.
  rewrite insert_insert_eq in Hso.
  assert (HP1 : P1 = {| state := st2;
                        pool := [try_catch (subscribe s) (on_error s)] |}).
  { subst P1. rewrite run_cons.
    change (sched_step E (Arrive s) P0) with (arrive E s P0).
    rewrite (arrive_auth E s P0 whole sid Hrat Hc Hm), Hpool.
    unfold getUserFromSession. rewrite Hrat.
    cbn -[admitted on_error subscribe settle]. unfold run_at.
    cbn -[admitted on_error subscribe settle]. rewrite Hsess.
    cbn -[admitted on_error subscribe settle truthy_str]. rewrite Ht.
    fold st0. rewrite Hset. reflexivity. }
  split. { by rewrite HP1. }
  subst P2. rewrite HP1.
  rewrite run_cons. simp_loop. unfold client_close, do_disconnect. simp_loop.
  rewrite Hso, lookup_insert_eq. simp_loop.
  rewrite run_cons. cbn -[run perspKey perspName Nat.ltb split_colon subscribe].
  unfold run_at. cbn -[run perspKey perspName Nat.ltb split_colon subscribe].
  rewrite Hlog. cbn -[run perspKey perspName Nat.ltb split_colon subscribe].
  rewrite run_cons. cbn -[run perspKey perspName Nat.ltb split_colon subscribe].
  unfold run_at. cbn -[run perspKey perspName Nat.ltb split_colon subscribe].
  rewrite Hl, lookup_insert_eq.
  cbn -[run perspKey perspName Nat.ltb split_colon subscribe].
  rewrite run_cons. cbn -[run perspKey perspName Nat.ltb split_colon subscribe].
  unfold run_at. cbn -[run perspKey perspName Nat.ltb split_colon subscribe].
  cbn. rewrite Hr, Hl, Htr, <- !app_assoc, delete_insert_eq. done.
Qed.

(** ** Start-up reconciliation only reads *)

Lemma nsps_do_ensure_subseteq (p : Persp) (st : State) :
  nsps st ⊆ nsps (do_ensure p st).
Proof.
  unfold do_ensure. destruct (nsps st !! persp_name p) eqn:Hl; simpl; [done |].
  by apply insert_subseteq.
Qed.

Lemma settle_reads_only (p : prog) :
  reads_only p ->
  forall st,
    redis (settle p st).1 = redis st
    /\ rtlog (settle p st).1 = rtlog st
    /\ sockets (settle p st).1 = sockets st
    /\ nsps st ⊆ nsps (settle p st).1
    /\ Forall reads_only (settle p st).2.
Proof.
  induction 1 as [| | key k Hk _ | pre k Hk _ | name k Hk _ | p k Hk IH
                 | q k Hq IHq Hk IHk]; intros st; simpl.
  - done.
  - done.
  - repeat split; try done. repeat constructor. done.
  - repeat split; try done. repeat constructor. done.
  - repeat split; try done. repeat constructor. done.
  - destruct (IH (do_ensure p st)) as (H1 & H2 & H3 & H4 & H5).
    rewrite H1, H2, H3. repeat split; try done.
    + unfold do_ensure. by destruct (nsps st !! persp_name p).
    + unfold do_ensure. by destruct (nsps st !! persp_name p).
    + unfold do_ensure. by destruct (nsps st !! persp_name p).
    + etrans; [apply (nsps_do_ensure_subseteq p st) | done].
  - destruct (IHq st) as (H1 & H2 & H3 & H4 & H5).
    destruct (settle q st) as [st1 l1]. simpl in *.
    destruct (IHk st1) as (G1 & G2 & G3 & G4 & G5).
    destruct (settle k st1) as [st2 l2]. simpl in *.
    repeat split; try congruence.
    + by etrans.
    + by apply Forall_app.
Qed.

Lemma step_task_reads_only (E : Env) (p : prog) (st : State) :
  reads_only p ->
  redis (step_task E p st).1 = redis st
  /\ rtlog (step_task E p st).1 = rtlog st
  /\ sockets (step_task E p st).1 = sockets st
  /\ nsps st ⊆ nsps (step_task E p st).1
  /\ Forall reads_only (step_task E p st).2.
Proof.
  intros Hp. inversion Hp as [| | key k Hk | pre k Hk | name k Hk | q k Hk
                             | q k Hq Hk]; subst.
  - done.
  - done.
  - exact (settle_reads_only _ (Hk _) (emit _ st)).
  - exact (settle_reads_only _ (Hk _) (emit _ st)).
  - exact (settle_reads_only _ (Hk _) (emit _ st)).
  - exact (settle_reads_only _ Hp st).
  - exact (settle_reads_only _ Hp st).
Qed.

Lemma setupNamespace_key_reads_only (key : string) :
  reads_only (setupNamespace_key key).
Proof.
  unfold setupNamespace_key. constructor. intros r. cbv zeta.
  destruct (1 <? length (split_colon key))%nat; [| constructor].
  constructor; [| constructor]. constructor. intros [p |]; repeat constructor.
Qed.

Lemma setupNamespace_reads_only : reads_only setupNamespace.
Proof.
  unfold setupNamespace. constructor. intros keys.
  induction keys as [| key keys IH]; simpl; [constructor |].
  constructor; [apply setupNamespace_key_reads_only | exact IH].
Qed.

Lemma run_at_reads_only (E : Env) (i : nat) (P : Process) :
  Forall reads_only (pool P) ->
  redis (state (run_at E i P)) = redis (state P)
  /\ rtlog (state (run_at E i P)) = rtlog (state P)
  /\ sockets (state (run_at E i P)) = sockets (state P)
  /\ nsps (state P) ⊆ nsps (state (run_at E i P))
  /\ Forall reads_only (pool (run_at E i P)).
Proof.
  intros Hall. unfold run_at. destruct (pool P !! i) as [p |] eqn:Hi; [| done].
  assert (Hp : reads_only p).
  { rewrite Forall_forall in Hall. apply Hall. by eapply list_elem_of_lookup_2. }
  destruct (step_task_reads_only E p (state P) Hp) as (H1 & H2 & H3 & H4 & H5).
  destruct (step_task E p (state P)) as [st new]. simpl in *.
  repeat split; try done.
  apply Forall_app. split; [by apply Forall_take |].
  apply Forall_app. split; [done | by apply Forall_drop].
Qed.

(** X6: under every schedule, the chains that [setupNamespace] starts
    leave the counter store, the log entries and the sockets exactly as
    they were, and never remove a namespace: stale counters are neither
    decremented nor deleted at start-up. *)
Theorem reconciliation_only_reads (E : Env) (st : State) (sched : list nat) :
  let P := run E (Run <$> sched) (init st) in
  redis (state P) = redis st
  /\ rtlog (state P) = rtlog st
  /\ sockets (state P) = sockets st
  /\ nsps st ⊆ nsps (state P).
Proof.
  assert (Hgen : forall P0,
            Forall reads_only (pool P0) ->
            let P := run E (Run <$> sched) P0 in
            redis (state P) = redis (state P0)
            /\ rtlog (state P) = rtlog (state P0)
            /\ sockets (state P) = sockets (state P0)
            /\ nsps (state P0) ⊆ nsps (state P)).
  { induction sched as [| i sched IH]; intros P0 Hall; [done |].
    simpl. destruct (run_at_reads_only E i P0 Hall) as (H1 & H2 & H3 & H4 & H5).
    destruct (IH _ H5) as (G1 & G2 & G3 & G4).
    split; [exact (eq_trans G1 H1) |]. split; [exact (eq_trans G2 H2) |].
    split; [exact (eq_trans G3 H3) |]. by etrans. }
  intros P.
  pose proof (settle_reads_only _ setupNamespace_reads_only st)
    as (H1 & H2 & H3 & H4 & H5).
  assert (Hinit : init st = {| state := (settle setupNamespace st).1;
                                 pool := (settle setupNamespace st).2 |}).
  { unfold init. by destruct (settle setupNamespace st). }
  subst P. rewrite Hinit.
  destruct (Hgen {| state := (settle setupNamespace st).1;
                     pool := (settle setupNamespace st).2 |} H5)
    as (G1 & G2 & G3 & G4).
  split; [exact (eq_trans G1 H1) |]. split; [exact (eq_trans G2 H2) |].
  split; [exact (eq_trans G3 H3) |]. by etrans.
Qed.

(** ** The name that reconciliation recovers from a key *)

Lemma append_empty_r (a : string) : a +:+ "" = a.
Proof.
  induction a as [| x a IH]; [done |].
  change (String x a +:+ "") with (String x (a +:+ "")). by rewrite IH.
Qed.

Lemma rev_app_rev_app (a c d : string) :
  String.rev_app (String.rev_app a c) d = String.rev_app c (a +:+ d).
Proof.
  revert c d. induction a as [| x a IH]; intros c d; [done |].
  change (String x a +:+ d) with (String x (a +:+ d)).
  simpl. by rewrite IH.
Qed.

Lemma rev_rev_app (a : string) : String.rev (String.rev_app a "") = a.
Proof.
  unfold String.rev. rewrite rev_app_rev_app. simpl. apply append_empty_r.
Qed.

Lemma split_colon_aux_segment (a cur : string) :
  no_colon a = true ->
  split_colon_aux cur a = [String.rev (String.rev_app a cur)]
  /\ forall rest,
       split_colon_aux cur (a +:+ String ":" rest)
       = String.rev (String.rev_app a cur) :: split_colon_aux EmptyString rest.
Proof.
  revert cur. induction a as [| x a IH]; intros cur Hno.
  - split; [done |]. intros rest. reflexivity.
  - simpl in Hno. apply andb_true_iff in Hno as [Hx Ha].
    apply negb_true_iff in Hx.
    destruct (IH (String x cur) Ha) as [IH1 IH2].
    split.
    + simpl. by rewrite Hx.
    + intros rest.
      change (String x a +:+ String ":" rest) with (String x (a +:+ String ":" rest)).
      simpl. by rewrite Hx.
Qed.

(** The key written for a name without a colon splits into the prefix and
    that name; with a colon in the name, the second segment is the part of
    the name before it. *)
Lemma split_colon_perspKey (a : string) :
  no_colon a = true ->
  split_colon (activePerspPrefix +:+ a) !! 1%nat = Some a
  /\ forall rest,
       split_colon (activePerspPrefix +:+ a +:+ String ":" rest) !! 1%nat = Some a.
Proof.
  intros Hno. destruct (split_colon_aux_segment a "" Hno) as [H1 H2].
  rewrite rev_rev_app in H1, H2. split.
  - change (split_colon (activePerspPrefix +:+ a))
      with ("activePersp" :: split_colon_aux "" a).
    by rewrite H1.
  - intros rest.
    change (split_colon (activePerspPrefix +:+ a +:+ String ":" rest))
      with ("activePersp" :: split_colon_aux "" (a +:+ String ":" rest)).
    by rewrite H2.
Qed.

(** X7: for a perspective name without a colon, the name that
    [setupNamespace] extracts from the key [perspKey] is the name the
    subscriber used. *)
Theorem reconciliation_recovers_name
    (E : Env) (s : Socket) (a : string) (st : State) :
  perspName s = Some a ->
  no_colon a = true ->
  let P := run E [Run 0; Run 0]%nat
             {| state := st; pool := [setupNamespace_key (perspKey s)] |} in
  pool P = []
  /\ exists tl,
       trace (state P)
       = trace st
         ++ EvGet (perspKey s) (redis st !! perspKey s)
            :: EvFindOne (perspName s)
                 (match perspective_table E (perspName s) with
                  | Some _ => true | None => false end)
            :: tl.
Proof.
  intros Hname Hno.
  destruct (split_colon_perspKey a Hno) as [Hsplit _].
  assert (Hkey : perspKey s = activePerspPrefix +:+ a).
  { unfold perspKey. by rewrite Hname. }
  rewrite <- Hkey in Hsplit.
  assert (Hlen : (1 <? length (split_colon (perspKey s)))%nat = true).
  { apply Nat.ltb_lt. by apply lookup_lt_Some in Hsplit. }
  loop_exec. rewrite Hlen. loop_exec. rewrite Hsplit, <- Hname.
  destruct (perspective_table E (perspName s)) as [p |]; loop_exec.
  - split; [done |]. unfold do_ensure. simpl.
    destruct (nsps st !! persp_name p); simpl; rewrite <- ?app_assoc; eauto.
  - split; [done |]. rewrite <- ?app_assoc. eauto.
Qed.

(** X8: for a perspective name with a colon, [setupNamespace] looks up
    the part of the name before the first colon only. *)
Theorem reconciliation_truncates_name_at_colon
    (E : Env) (s : Socket) (a rest : string) (st : State) :
  perspName s = Some (a +:+ String ":" rest) ->
  no_colon a = true ->
  let P := run E [Run 0; Run 0]%nat
             {| state := st; pool := [setupNamespace_key (perspKey s)] |} in
  pool P = []
  /\ exists tl,
       trace (state P)
       = trace st
         ++ EvGet (perspKey s) (redis st !! perspKey s)
            :: EvFindOne (Some a)
                 (match perspective_table E (Some a) with
                  | Some _ => true | None => false end)
            :: tl.
Proof.
  intros Hname Hno.
  destruct (split_colon_perspKey a Hno) as [_ Hsplit]. specialize (Hsplit rest).
  assert (Hkey : perspKey s = activePerspPrefix +:+ a +:+ String ":" rest).
  { unfold perspKey. by rewrite Hname. }
  rewrite <- Hkey in Hsplit.
  assert (Hlen : (1 <? length (split_colon (perspKey s)))%nat = true).
  { apply Nat.ltb_lt. by apply lookup_lt_Some in Hsplit. }
  loop_exec. rewrite Hlen. loop_exec. rewrite Hsplit.
  destruct (perspective_table E (Some a)) as [p |]; loop_exec.
  - split; [done |]. unfold do_ensure. simpl.
    destruct (nsps st !! persp_name p); simpl; rewrite <- ?app_assoc; eauto.
  - split; [done |]. rewrite <- ?app_assoc. eauto.
Qed.

(** *** Instances of the statements above *)



Lemma invalid_session_is_rejected_witness :
  let s := {| id := "s7";
              handshake := {| cookie := Some "connect.sid=s%3Azzz.sig";
                              x_forwarded_for := None;
                              address := Some "10.0.0.7";
                              query_p := Some "ops" |} |} in
  let P1 := run Scenario.E_auth [Arrive s; Run 0%nat] Scenario.idle in
  session_store Scenario.E_auth "zzz" = SessionData None
  /\ pool P1 = []
  /\ trace (state P1) = [EvSessionGet "zzz"; EvDisconnect "s7"].
Proof.
  intros s P1. split; [reflexivity |].
  pose proof (invalid_session_is_rejected Scenario.E_auth s Scenario.idle
                "connect.sid=s%3Azzz." "zzz"
                eq_refl eq_refl eq_refl eq_refl eq_refl) as H.
  exact (conj (proj1 H) (proj2 (proj2 (proj2 (proj2 (proj2 H)))))).
Defined.

Lemma unlisted_address_is_rejected_witness :
  let E := {| requireAccessToken := false; logEnabled := true;
              ipWhitelist := JArr [JStr ""];
              isIpWhitelisted := fun _ _ => false;
              session_store := Scenario.sessions;
              perspective_table := Scenario.table |} in
  let P1 := run E [Arrive Scenario.ops1; Run 0%nat] Scenario.idle in
  address_check E Scenario.ops1 = false
  /\ pool P1 = []
  /\ rtlog (state P1) = ∅
  /\ sockets (state P1) !! "s1" = Some {| connected := false; listeners := [] |}.
Proof.
  intros E P1. split; [reflexivity |].
  pose proof (unlisted_address_is_rejected E Scenario.ops1 Scenario.idle
                "connect.sid=s%3Aabc." "abc" eq_refl eq_refl
                (fun H : false = true => False_ind _ (Bool.diff_false_true H))
                eq_refl eq_refl) as H.
  exact (conj (proj1 H)
           (conj (proj1 (proj2 (proj2 H)))
              (proj1 (proj2 (proj2 (proj2 (proj2 H))))))).
Defined.

Lemma activity_log_round_trip_witness :
  let E := {| requireAccessToken := true; logEnabled := true;
              ipWhitelist := JArr [];
              isIpWhitelisted := fun _ _ => true;
              session_store := Scenario.sessions;
              perspective_table := Scenario.table |} in
  let P2 := run E [Arrive Scenario.ops1; Run 0%nat;
                   ClientClose "s1"; Run 1%nat; Run 2%nat; Run 2%nat]
              Scenario.idle in
  session_store E "abc" = SessionData (Some "alice")
  /\ trace (state P2)
     = [EvSessionGet "abc"; EvLogSet "s1"; EvDisconnect "s1"; EvLogGet "s1";
        EvPrint {| log_ipAddress := Some "10.0.0.7"; log_user := "alice";
                   log_perspective := Some "ops" |};
        EvLogDel "s1"].
Proof.
  intros E P2. split; [reflexivity |].
  pose proof (activity_log_round_trip E Scenario.ops1 Scenario.idle
                "connect.sid=s%3Aabc." "abc" "alice"
                eq_refl eq_refl eq_refl eq_refl eq_refl
                ltac:(discriminate) eq_refl eq_refl) as H.
  exact (proj2 (proj2 (proj2 H))).
Defined.

Lemma reconciliation_recovers_name_witness :
  let P := run Scenario.E_open [Run 0; Run 0]%nat
             {| state := Scenario.st_zero;
                pool := [setupNamespace_key (perspKey Scenario.ops1)] |} in
  no_colon "ops" = true /\ pool P = [].
Proof.
  intros P. split; [reflexivity |].
  exact (proj1 (reconciliation_recovers_name Scenario.E_open Scenario.ops1 "ops"
                  Scenario.st_zero eq_refl eq_refl)).
Defined.

Lemma reconciliation_truncates_name_at_colon_witness :
  let s := {| id := "s8"; handshake := Scenario.hs (Some "ops:eu") |} in
  let P := run Scenario.E_open [Run 0; Run 0]%nat
             {| state := empty_state; pool := [setupNamespace_key (perspKey s)] |} in
  perspName s = Some ("ops" +:+ String ":" "eu")
  /\ exists tl,
       trace (state P)
       = [] ++ EvGet "activePersp:ops:eu" None :: EvFindOne (Some "ops") true :: tl.
Proof.
  intros s P. split; [reflexivity |].
  exact (proj2 (reconciliation_truncates_name_at_colon Scenario.E_open s "ops" "eu"
                  empty_state eq_refl eq_refl)).
Defined.

(** * Further properties of the configuration *)

(** X9: the [push] made while building the [build] entry changes the one
    array that [development], [production] and [testWhitelistLocalhost]
    reference: in each of them the whitelist is the parsed list followed by
    the string ['::ffff:127.0.0.1'], and this is the whitelist the socket
    listener uses when [NODE_ENV] is unset or empty. *)
Theorem environments_share_the_pushed_entry
    (parseIPlist : string -> list jsval) (pe : Config.process_env) :
  let conf := Config.module_exports parseIPlist pe in
  let shared :=
    JArr (Config.iplist parseIPlist pe ++ [JStr "::ffff:127.0.0.1"]) in
  Config.ipWhitelist <$> Config.environment conf "development" = Some shared
  /\ Config.ipWhitelist <$> Config.environment conf "production" = Some shared
  /\ Config.ipWhitelist <$> Config.environment conf "testWhitelistLocalhost"
     = Some shared
  /\ (pe "NODE_ENV" = None \/ pe "NODE_ENV" = Some "" ->
      conf_ipWhitelist conf = Some shared).
Proof.
  intros conf shared. subst conf shared. unfold Config.module_exports, Config.push.
  repeat split; try reflexivity.
  intros Hnode. unfold conf_ipWhitelist. cbn.
  unfold Config.nodeEnv_. by destruct Hnode as [-> | ->].
Qed.

Lemma or_default_nonempty (a : option string) (b : string) :
  b <> "" -> Config.or_default a b <> "".
Proof.
  intros Hb. unfold Config.or_default. destruct a as [s |]; [| done].
  by destruct (String.eqb_spec s "").
Qed.

Lemma truthy_str_Some (o : option string) :
  truthy_str o = true -> exists v, o = Some v /\ v <> "".
Proof.
  destruct o as [v |]; [| done]. simpl. intros H. exists v. split; [done |].
  by destruct (String.eqb_spec v "").
Qed.

Lemma truthy_str_set (v : string) : v <> "" -> truthy_str (Some v) = true.
Proof. intros Hv. simpl. by destruct (String.eqb_spec v ""). Qed.

Lemma instance_follows (pe : Config.process_env) (selector : string) :
  RedisConfig.follows pe selector (RedisConfig.instance pe selector).
Proof.
  assert (Hprimary : RedisConfig.PRIMARY_REDIS pe <> "").
  { by apply or_default_nonempty. }
  unfold RedisConfig.follows, RedisConfig.instance.
  destruct (truthy_str (pe selector)) eqn:Hsel; cbn [andb].
  - destruct (truthy_str_Some _ Hsel) as (name & Hname & Hne).
    rewrite Hname. change (default "" (Some name)) with name.
    unfold RedisConfig.get.
    destruct (pe name) as [url |] eqn:Hurl; cbn [RedisConfig.truthy].
    + destruct (String.eqb_spec url "") as [-> | Hu]; cbn [negb].
      * split; [done |]. split; [by left |]. split.
        { intros name' s [= <-] _ Hs Hs'. rewrite Hurl in Hs. congruence. }
        intros name' [= <-] Hs _. congruence.
      * split; [done |]. split.
        { right. exists name. by rewrite Hurl. }
        split.
        { intros name' s [= <-] _ Hs _. rewrite Hurl in Hs. congruence. }
        intros name' [= <-] Hs _. congruence.
    + destruct (bool_decide (name ∈ RedisConfig.Object_prototype)) eqn:Hin;
        cbn [RedisConfig.truthy].
      * apply bool_decide_eq_true in Hin. split; [done |]. split.
        { right. exists name. rewrite Hurl.
          by rewrite bool_decide_eq_true_2. }
        split.
        { intros name' s [= <-] _ Hs _. congruence. }
        by intros name' [= <-] _ _.
      * apply bool_decide_eq_false in Hin.
        split; [done |]. split; [by left |]. split.
        { intros name' s [= <-] _ Hs _. congruence. }
        by intros name' [= <-] _ Hin'.
  - assert (Hno : forall name, pe selector = Some name -> name = "").
    { intros name Hname. destruct (String.eqb_spec name "") as [-> | Hne];
        [done |]. rewrite Hname in Hsel.
      by rewrite (truthy_str_set name Hne) in Hsel. }
    split; [done |]. split; [by left |]. split.
    + intros name s Hname Hne _ _. by apply Hno in Hname.
    + intros name Hname _ Hin. apply Hno in Hname as ->.
      vm_compute in Hin. clear -Hin.
      repeat (apply elem_of_cons in Hin as [Hin | Hin]; [done |]).
      by apply elem_of_nil in Hin.
Qed.

(** X10: each of the seven Redis entries is decided by its own selector
    variable.  When the selector holds the name of a variable that is set
    and not empty, the entry is that variable's value; otherwise it is the
    primary URL, [REDIS_URL] or the local default, and so a non-empty
    string, unless the selector holds a name that is not set and that
    [process.env] inherits from [Object.prototype]: then the entry is that
    inherited value and not a string. *)
Theorem redis_instance_urls_follow_their_selectors (pe : Config.process_env) :
  let u := RedisConfig.instanceUrl pe in
  RedisConfig.follows pe "REDIS_CACHE" (RedisConfig.cache u)
  /\ RedisConfig.follows pe "REDIS_LIMITER" (RedisConfig.limiter u)
  /\ RedisConfig.follows pe "REDIS_PUBSUB" (RedisConfig.pubsub u)
  /\ RedisConfig.follows pe "REDIS_QUEUE" (RedisConfig.queue u)
  /\ RedisConfig.follows pe "REDIS_REALTIME_LOGGING" (RedisConfig.realtimeLogging u)
  /\ RedisConfig.follows pe "REDIS_SAMPLE_STORE" (RedisConfig.sampleStore u)
  /\ RedisConfig.follows pe "REDIS_SESSION" (RedisConfig.session u)
  /\ (RedisConfig.PRIMARY_REDIS pe = RedisConfig.DEFAULT_LOCAL_REDIS_URL
      \/ pe "REDIS_URL" = Some (RedisConfig.PRIMARY_REDIS pe)).
Proof.
  intros u. subst u. unfold RedisConfig.instanceUrl. cbn.
  repeat (split; [apply instance_follows |]).
  unfold RedisConfig.PRIMARY_REDIS, Config.or_default.
  destruct (pe "REDIS_URL") as [s |]; [| by left].
  destruct (String.eqb_spec s ""); [by left | by right].
Qed.

(** With [REDIS_CACHE=toString] and no variable of that name, the cache
    entry is the function that [Object.prototype] has under [toString];
    the other entries are the local default. *)
Example cache_entry_can_be_inherited :
  let u := RedisConfig.instanceUrl RedisConfig.cache_names_toString in
  RedisConfig.cache u = RedisConfig.EnvInherited "toString"
  /\ RedisConfig.session u = RedisConfig.EnvString "//127.0.0.1:6379".
Proof. by vm_compute. Qed.

(** * Further properties: removal of completed jobs *)

Import JobCleanup.

(** The number that a numeral followed by further digits denotes. *)
Lemma of_uint_acc_revapp (r d : Decimal.uint) (acc : nat) :
  Nat.of_uint_acc (Decimal.revapp r d) acc
  = Nat.of_uint_acc d (Nat.of_uint_acc (Decimal.revapp r Decimal.Nil) acc).
Proof.
  revert d. induction r as [| r IH | r IH | r IH | r IH | r IH | r IH | r IH
                             | r IH | r IH | r IH]; intros d;
    [ reflexivity | .. ];
    cbn [Decimal.revapp]; rewrite IH; symmetry; rewrite IH; reflexivity.
Qed.

Lemma of_uint_app (d d' : Decimal.uint) :
  Nat.of_uint (Decimal.app d d')
  = (Nat.of_uint d * 10 ^ DecimalNat.Unsigned.usize d' + Nat.of_uint d')%nat.
Proof.
  unfold Nat.of_uint at 1, Decimal.app. rewrite of_uint_acc_revapp.
  change (Decimal.revapp (Decimal.rev d) Decimal.Nil)
    with (Decimal.rev (Decimal.rev d)).
  rewrite DecimalFacts.rev_rev, DecimalNat.Unsigned.of_uint_acc_spec.
  rewrite <- DecimalNat.Unsigned.of_uint_alt. fold (Nat.of_uint d). lia.
Qed.

(** With a batch size of positive value, [rangeByState] is asked for at
    least that many jobs from rank [k] on, and for exactly that many when
    the batch size is a number. *)
Lemma batch_width (n : size) (k : nat) (q : list job) :
  (0 < to_number n)%nat ->
  exists w,
    rangeByState q k (last_rank k n) = take w (drop k q)
    /\ (to_number n <= w)%nat
    /\ (forall m, n = Num m -> w = m).
Proof.
  intros Hpos. destruct n as [m | digits]; simpl in Hpos.
  - exists m. unfold rangeByState, last_rank.
    destruct (Z.ltb_spec (Z.of_nat (k + m) - 1) 0); [lia |].
    split; [f_equal; lia |]. split; [done |]. by intros ? [= <-].
  - unfold rangeByState, last_rank. rewrite of_uint_app.
    rewrite DecimalNat.Unsigned.of_to.
    set (u := DecimalNat.Unsigned.usize digits).
    assert (Hu : (1 <= 10 ^ u)%nat).
    { pose proof (Nat.pow_nonzero 10 u). lia. }
    set (b := (k * 10 ^ u + Nat.of_uint digits)%nat).
    assert (Hb : (k + Nat.of_uint digits <= b)%nat) by (subst b; nia).
    destruct (Z.ltb_spec (Z.of_nat b - 1) 0); [lia |].
    exists (b - k)%nat. split; [f_equal; lia |]. split; [simpl; lia | done].
Qed.

Section Cleanup_facts.
Context (range_fails : nat -> bool) (delay now : Z).

Abbreviation young := (too_young delay now).
Abbreviation keeps := (stays delay now).
Abbreviation fails := (failed delay now).

Lemma filter_length_le {A} (f : A -> bool) (l : list A) :
  (length (List.filter f l) <= length l)%nat.
Proof. induction l as [| x l IH]; simpl; [lia |]. destruct (f x); simpl; lia. Qed.

Lemma filter_length_split {A} (f : A -> bool) (l : list A) :
  (length (List.filter f l) + length (List.filter (fun x => negb (f x)) l)
   = length l)%nat.
Proof. induction l as [| x l IH]; simpl; [lia |]. destruct (f x); simpl; lia. Qed.

Lemma filter_young_keeps (l : list job) :
  List.filter young (List.filter keeps l) = List.filter young l.
Proof.
  induction l as [| j l IH]; [done |].
  cbn [List.filter]. unfold stays at 1.
  destruct (young j) eqn:Hy; cbn [orb List.filter].
  - by rewrite Hy, IH.
  - destruct (remove_fails j); cbn [List.filter]; rewrite ?Hy; done.
Qed.

Lemma filter_keeps_no_failure (l : list job) :
  length (List.filter fails l) = 0%nat ->
  List.filter keeps l = List.filter young l.
Proof.
  induction l as [| j l IH]; [done |].
  cbn [List.filter]. unfold stays at 1, failed at 1.
  destruct (young j) eqn:Hy; cbn [orb andb negb].
  - intros H. by rewrite IH.
  - destruct (remove_fails j); cbn [length]; [done |]. intros H. by rewrite IH.
Qed.

Lemma no_failure_filter (l : list job) :
  Forall (fun j => fails j = false) l -> length (List.filter fails l) = 0%nat.
Proof.
  induction 1 as [| j l Hj _ IH]; [done |]. cbn [List.filter]. by rewrite Hj.
Qed.

Lemma queue_split (q : list job) (k n : nat) :
  q = take k q ++ take n (drop k q) ++ drop (k + n) q.
Proof. by rewrite <- drop_drop, !take_drop. Qed.

Lemma take_length_take {A} (w : nat) (l : list A) :
  take (length (take w l)) l = take w l.
Proof.
  rewrite length_take. destruct (Nat.min_spec w (length l)) as [[_ ->] | [H ->]];
    [done |]. by rewrite firstn_all, take_ge.
Qed.

Lemma deleteNextNJobs_spec (n : size) :
  (0 < to_number n)%nat ->
  forall (fuel : nat) (c : counts) (q : list job),
    (skippedJobCount c <= length q)%nat ->
    (length q - skippedJobCount c < fuel)%nat ->
    exists r,
      deleteNextNJobs range_fails delay now fuel n c q = Some r
      /\ List.filter young (complete r) = List.filter young q
      /\ (how r = Resolved ->
          complete r
          = take (skippedJobCount c) q
            ++ List.filter young (drop (skippedJobCount c) q)
          /\ (forall m, n = Num m ->
              iterations (counters r)
              = (iterations c + length (drop (skippedJobCount c) q) / m + 1)%nat)
          /\ removedJobCount (counters r)
             = (removedJobCount c
                + length (List.filter (fun j => negb (young j))
                            (drop (skippedJobCount c) q)))%nat
          /\ skippedJobCount (counters r)
             = (skippedJobCount c
                + length (List.filter young (drop (skippedJobCount c) q)))%nat
          /\ errorJobCount (counters r) = errorJobCount c)
      /\ ((forall i, range_fails i = false) ->
          Forall (fun j => fails j = false) (drop (skippedJobCount c) q) ->
          how r = Resolved).
Proof.
  intros Hn. induction fuel as [| fuel IH]; intros c q Hk Hfuel; [lia |].
  cbn [deleteNextNJobs]. cbv zeta.
  cbn [skippedJobCount iterations removedJobCount errorJobCount].
  set (k := skippedJobCount c) in *.
  assert (Hnz : strict_eq_0 n = false).
  { destruct n as [[| m] | digits]; simpl in *; [lia | done | done]. }
  rewrite Hnz.
  destruct (range_fails (S (iterations c))) eqn:Hrange.
  { eexists. split; [reflexivity |]. cbn. split; [done |]. split; [done |].
    intros Hall _. by rewrite Hall in Hrange. }
  destruct (batch_width n k q Hn) as (w & -> & Hw & Hnum).
  set (jobs := take w (drop k q)).
  set (b := length jobs).
  assert (Hjobs_b : take b (drop k q) = jobs).
  { subst b jobs. apply take_length_take. }
  set (q1 := take k q ++ List.filter keeps jobs ++ drop (k + b) q).
  assert (Hyoung : List.filter young q1 = List.filter young q).
  { rewrite (queue_split q k b) at 1. subst q1. rewrite Hjobs_b.
    rewrite !List.filter_app, filter_young_keeps. done. }
  destruct (Nat.ltb_spec 0 (length (List.filter fails jobs))) as [Herr | Herr].
  { eexists. split; [reflexivity |]. cbn. split; [done |]. split; [done |].
    intros _ Hall. apply no_failure_filter in Hall.
    assert (Hsub : length (List.filter fails jobs) = 0%nat).
    { subst jobs. rewrite <- (take_drop w (drop k q)) in Hall.
      rewrite List.filter_app, length_app in Hall. lia. }
    lia. }
  assert (Hnoerr : length (List.filter fails jobs) = 0%nat) by lia.
  assert (Hq1 : q1 = take k q ++ List.filter young jobs ++ drop (k + b) q).
  { subst q1. by rewrite (filter_keeps_no_failure jobs Hnoerr). }
  assert (Hlenk : length (take k q) = k) by (rewrite length_take; lia).
  assert (Hb : b = Nat.min w (length q - k)).
  { subst b jobs. by rewrite length_take, length_drop. }
  destruct (Nat.ltb_spec b (to_number n)) as [Hshort | Hfull].
  - (* last batch *)
    eexists. split; [reflexivity |]. cbn. split; [done |].
    assert (Hjobs : jobs = drop k q).
    { subst jobs. apply take_ge. rewrite length_drop. lia. }
    assert (Hrest : drop (k + b) q = []).
    { apply drop_ge. lia. }
    split; [| done]. intros _.
    rewrite Hq1, Hrest, app_nil_r, Hjobs. split; [done |].
    pose proof (filter_length_split young (drop k q)) as Hfs.
    assert (Hbl : b = length (drop k q)) by (subst b; by rewrite Hjobs).
    split.
    { intros m ->. simpl in Hshort. rewrite Nat.div_small by lia. lia. }
    fold b. repeat split; lia.
  - (* full batch: go on *)
    assert (Hdrop : (b <= length q - k)%nat) by lia.
    set (s := length (List.filter young jobs)).
    set (c2 := {| iterations := S (iterations c);
                  removedJobCount := removedJobCount c + (b - s);
                  skippedJobCount := k + s;
                  errorJobCount := errorJobCount c |}).
    assert (Hs : (s <= b)%nat).
    { subst s b. apply filter_length_le. }
    assert (Hlq1 : length q1 = (length q - b + s)%nat).
    { rewrite Hq1, !length_app, Hlenk, length_drop. fold s. lia. }
    assert (Htake1 : take (k + s) q1 = take k q ++ List.filter young jobs).
    { rewrite Hq1, app_assoc. apply take_app_length'.
      rewrite length_app, Hlenk. done. }
    assert (Hdrop1 : drop (k + s) q1 = drop b (drop k q)).
    { rewrite Hq1, app_assoc, drop_drop. apply drop_app_length'.
      rewrite length_app, Hlenk. done. }
    destruct (IH c2 q1) as (r & Hr & Hy & Hres & Hok).
    { cbn. lia. }
    { cbn. lia. }
    exists r. split; [exact Hr |]. split; [by rewrite Hy |].
    cbn [skippedJobCount iterations removedJobCount errorJobCount c2] in Hres, Hok.
    split.
    + intros Hhow. destruct (Hres Hhow) as (Hc & Hi & Hrem & Hsk & He).
      rewrite Htake1, Hdrop1 in Hc. rewrite Hdrop1 in Hi, Hrem, Hsk.
      assert (Hsplit : drop k q = jobs ++ drop b (drop k q)).
      { by rewrite <- Hjobs_b, take_drop. }
      split.
      { rewrite Hc, <- app_assoc. f_equal.
        rewrite <- List.filter_app. by rewrite <- Hsplit. }
      assert (Hl : length (drop k q) = (b + length (drop b (drop k q)))%nat).
      { rewrite Hsplit at 1. by rewrite length_app. }
      pose proof (filter_length_split young jobs) as Hfs. fold s b in Hfs.
      assert (Hfy : List.filter young (drop k q)
                    = List.filter young jobs
                      ++ List.filter young (drop b (drop k q))).
      { rewrite <- List.filter_app. by rewrite <- Hsplit. }
      assert (Hfo : List.filter (fun j => negb (young j)) (drop k q)
                    = List.filter (fun j => negb (young j)) jobs
                      ++ List.filter (fun j => negb (young j)) (drop b (drop k q))).
      { rewrite <- List.filter_app. by rewrite <- Hsplit. }
      split.
      { intros m Hm. specialize (Hi m Hm). specialize (Hnum m Hm).
        subst n. simpl in Hfull, Hn.
        assert (Hbm : b = m) by lia.
        rewrite Hl, Hbm. rewrite Hbm in Hi.
        replace (m + length (drop m (drop k q)))%nat
          with (1 * m + length (drop m (drop k q)))%nat by lia.
        rewrite Nat.div_add_l by lia. lia. }
      rewrite Hfy, Hfo, !length_app. fold s. repeat split; lia.
    + intros Hall Hnof. apply Hok; [done |]. rewrite Hdrop1.
      by apply Forall_drop.
Qed.

(** When the value of the batch size is 0 and it is not the number 0, the
    test that ends the loop, [results.length < n], is never true: without
    a failure every iteration starts another one. *)
Lemma deleteNextNJobs_goes_on (n : size) :
  to_number n = 0%nat ->
  strict_eq_0 n = false ->
  (forall i, range_fails i = false) ->
  forall (fuel : nat) (c : counts) (q : list job),
    Forall (fun j => remove_fails j = false) q ->
    deleteNextNJobs range_fails delay now fuel n c q = None.
Proof.
  intros Hzero Hstr Hrange.
  induction fuel as [| fuel IH]; intros c q Hq; [done |].
  cbn [deleteNextNJobs]. cbv zeta.
  cbn [skippedJobCount iterations removedJobCount errorJobCount].
  rewrite Hstr, Hrange, Hzero.
  set (jobs := rangeByState q (skippedJobCount c) (last_rank (skippedJobCount c) n)).
  assert (Hjobs : Forall (fun j => remove_fails j = false) jobs).
  { subst jobs. unfold rangeByState. by apply Forall_take, Forall_drop. }
  assert (Hnone : List.filter fails jobs = []).
  { clear -Hjobs. induction Hjobs as [| j l Hj _ IHl]; [done |].
    cbn [List.filter]. unfold failed at 1. by rewrite Hj, andb_false_r. }
  rewrite Hnone. cbn [length Nat.ltb Nat.leb].
  apply IH. apply Forall_app. split; [by apply Forall_take |].
  apply Forall_app. split; [| by apply Forall_drop].
  clear -Hjobs. induction Hjobs as [| j l Hj _ IHl]; [done |].
  cbn [List.filter]. destruct (keeps j); [by constructor | done].
Qed.

End Cleanup_facts.

Lemma execute_unfold (range_fails : nat -> bool) (delay now : Z) (logs : bool)
    (fuel : nat) (batchSize : size) (q : list job) :
  execute range_fails delay now logs fuel batchSize q
  = match deleteNextNJobs range_fails delay now fuel batchSize no_counts q with
    | Some r =>
        Some (r, match how r with
                 | Resolved => if logs then Some (counters r) else None
                 | Rejected => None
                 end)
    | None => None
    end.
Proof. reflexivity. Qed.

(** X11: when [execute] is called with a batch size of positive value (a
    number, or a string of digits as the environment gives it), the queue
    answers and no removal fails, it resolves; the completed jobs left are
    exactly those younger than [delay], in their order, all others are
    removed, and the counters handed to the activity log say so.  When the
    batch size is a number [m], this takes [length q / m + 1] iterations. *)
Theorem cleanup_keeps_exactly_the_young_jobs
    (range_fails : nat -> bool) (delay now : Z) (logs : bool)
    (batchSize : size) (q : list job) :
  (0 < to_number batchSize)%nat ->
  (forall i, range_fails i = false) ->
  Forall (fun j => failed delay now j = false) q ->
  exists r,
    execute range_fails delay now logs (S (length q)) batchSize q
    = Some (r, if logs then Some (counters r) else None)
    /\ how r = Resolved
    /\ complete r = List.filter (too_young delay now) q
    /\ removedJobCount (counters r)
       = length (List.filter (fun j => negb (too_young delay now j)) q)
    /\ skippedJobCount (counters r)
       = length (List.filter (too_young delay now) q)
    /\ errorJobCount (counters r) = 0%nat
    /\ (forall m, batchSize = Num m ->
        iterations (counters r) = (length q / m + 1)%nat).
Proof.
  intros Hn Hrange Hok.
  destruct (deleteNextNJobs_spec range_fails delay now batchSize Hn
              (S (length q)) no_counts q)
    as (r & Hr & _ & Hres & Hhow); [simpl; lia | simpl; lia |].
  specialize (Hhow Hrange Hok).
  destruct (Hres Hhow) as (Hc & Hi & Hrem & Hsk & He).
  simpl in Hc, Hi, Hrem, Hsk, He. rewrite drop_0 in Hc, Hi, Hrem, Hsk.
  exists r. rewrite execute_unfold, Hr, Hhow.
  repeat split; try done.
Qed.

(** X12: when [execute] is called with a batch size of positive value and
    a delay that is not positive, the queue answers and no removal fails,
    no job is skipped: the run removes every completed job. *)
Theorem cleanup_without_delay_empties_the_queue
    (range_fails : nat -> bool) (delay now : Z) (logs : bool)
    (batchSize : size) (q : list job) :
  (0 < to_number batchSize)%nat ->
  delay <= 0 ->
  (forall i, range_fails i = false) ->
  Forall (fun j => remove_fails j = false) q ->
  exists r lg,
    execute range_fails delay now logs (S (length q)) batchSize q = Some (r, lg)
    /\ how r = Resolved
    /\ complete r = []
    /\ removedJobCount (counters r) = length q
    /\ skippedJobCount (counters r) = 0%nat.
Proof.
  intros Hn Hdelay Hrange Hok.
  assert (Hyoung : forall j, too_young delay now j = false).
  { intros j. unfold too_young. destruct (Z.ltb_spec 0 delay); [lia | done]. }
  assert (Hnone : forall l : list job, List.filter (too_young delay now) l = []).
  { induction l as [| j l IH]; [done |]. simpl. by rewrite Hyoung. }
  assert (Hall : forall l : list job,
             List.filter (fun j => negb (too_young delay now j)) l = l).
  { induction l as [| j l IH]; [done |]. simpl. by rewrite Hyoung, IH. }
  destruct (deleteNextNJobs_spec range_fails delay now batchSize Hn
              (S (length q)) no_counts q)
    as (r & Hr & _ & Hres & Hhow); [simpl; lia | simpl; lia |].
  assert (Hres' : how r = Resolved).
  { apply Hhow; [done |]. eapply Forall_impl; [exact Hok |].
    intros j Hj. unfold failed. by rewrite Hj, andb_false_r. }
  destruct (Hres Hres') as (Hc & _ & Hrem & Hsk & _).
  simpl in Hc, Hrem, Hsk. rewrite drop_0, Hnone in Hc, Hsk.
  rewrite drop_0, Hall in Hrem.
  rewrite execute_unfold, Hr. eexists _, _. split; [reflexivity |]. done.
Qed.

(** X13: for every queue, every pattern of failures and every batch size of
    positive value (a number or a string of digits), [execute] settles,
    and the jobs younger than [delay] are all still in the queue, in their
    order; nothing is logged when it rejects. *)
Theorem cleanup_never_removes_a_young_job
    (range_fails : nat -> bool) (delay now : Z) (logs : bool)
    (batchSize : size) (q : list job) :
  (0 < to_number batchSize)%nat ->
  exists r lg,
    execute range_fails delay now logs (S (length q)) batchSize q = Some (r, lg)
    /\ List.filter (too_young delay now) (complete r)
       = List.filter (too_young delay now) q
    /\ (how r = Rejected -> lg = None).
Proof.
  intros Hn.
  destruct (deleteNextNJobs_spec range_fails delay now batchSize Hn
              (S (length q)) no_counts q)
    as (r & Hr & Hy & _ & _); [simpl; lia | simpl; lia |].
  rewrite execute_unfold, Hr.
  eexists _, _. split; [reflexivity |]. split; [done |]. by intros ->.
Qed.

(** X20: when the batch size is a string of digits of value 0 (as with
    [KUE_JOBS_REMOVAL_BATCH_SIZE=0]), [n === 0] is false and
    [results.length < n] is never true: if the queue answers and no removal
    fails, [execute] does not settle, however many iterations it is given.
    The number 0 resolves in the first iteration with the queue as it
    was. *)
Theorem cleanup_with_string_zero_never_settles
    (range_fails : nat -> bool) (delay now : Z) (logs : bool)
    (digits : Decimal.uint) (q : list job) :
  Nat.of_uint digits = 0%nat ->
  (forall i, range_fails i = false) ->
  Forall (fun j => remove_fails j = false) q ->
  (forall fuel,
     execute range_fails delay now logs fuel (Str digits) q = None)
  /\ (forall fuel,
        exists r lg,
          execute range_fails delay now logs (S fuel) (Num 0) q = Some (r, lg)
          /\ how r = Resolved /\ complete r = q
          /\ iterations (counters r) = 1%nat).
Proof.
  intros Hzero Hrange Hq. split.
  - intros fuel. rewrite execute_unfold.
    by rewrite (deleteNextNJobs_goes_on range_fails delay now (Str digits)
                  Hzero eq_refl Hrange fuel no_counts q Hq).
  - intros fuel. rewrite execute_unfold. cbn. by eexists _, _.
Qed.

(** *** Instances *)

Lemma cleanup_keeps_exactly_the_young_jobs_witness :
  exists r,
    execute CleanupScenario.queue_answers 30 100 true 4 (Num 2)
      CleanupScenario.three_jobs
    = Some (r, Some (counters r))
    /\ complete r = take 1 CleanupScenario.three_jobs
    /\ iterations (counters r) = 2%nat
    /\ removedJobCount (counters r) = 2%nat.
Proof.
  destruct (cleanup_keeps_exactly_the_young_jobs CleanupScenario.queue_answers
              30 100 true (Num 2) CleanupScenario.three_jobs
              ltac:(simpl; lia) (fun _ => eq_refl) ltac:(repeat constructor))
    as (r & H1 & _ & H3 & H4 & _ & _ & H7).
  exists r. split; [exact H1 |]. split; [exact H3 |].
  split; [exact (H7 2%nat eq_refl) | exact H4].
Defined.

Lemma cleanup_without_delay_empties_the_queue_witness :
  exists r lg,
    execute CleanupScenario.queue_answers 0 100 false 4 (Num 2)
      CleanupScenario.three_jobs
    = Some (r, lg)
    /\ complete r = []
    /\ removedJobCount (counters r) = 3%nat.
Proof.
  destruct (cleanup_without_delay_empties_the_queue
              CleanupScenario.queue_answers 0 100 false (Num 2)
              CleanupScenario.three_jobs
              ltac:(simpl; lia) ltac:(lia) (fun _ => eq_refl)
              ltac:(repeat constructor))
    as (r & lg & H1 & _ & H3 & H4 & _).
  exists r, lg. split; [exact H1 |]. split; [exact H3 | exact H4].
Defined.

Lemma cleanup_never_removes_a_young_job_witness :
  exists r lg,
    execute (fun i => Nat.eqb i 2) 30 100 true 4
      (Str (Decimal.D2 Decimal.Nil)) CleanupScenario.three_jobs
    = Some (r, lg)
    /\ List.filter (too_young 30 100) (complete r)
       = take 1 CleanupScenario.three_jobs.
Proof.
  destruct (cleanup_never_removes_a_young_job (fun i => Nat.eqb i 2) 30 100 true
              (Str (Decimal.D2 Decimal.Nil)) CleanupScenario.three_jobs
              ltac:(cbv; lia))
    as (r & lg & H1 & H2 & _).
  exists r, lg. split; [exact H1 | exact H2].
Defined.

Lemma cleanup_with_string_zero_never_settles_witness :
  execute CleanupScenario.queue_answers 30 100 true 50
    (Str (Decimal.D0 Decimal.Nil)) CleanupScenario.three_jobs
  = None.
Proof.
  exact (proj1 (cleanup_with_string_zero_never_settles
                  CleanupScenario.queue_answers 30 100 true
                  (Decimal.D0 Decimal.Nil) CleanupScenario.three_jobs
                  eq_refl (fun _ => eq_refl) ltac:(repeat constructor)) 50%nat).
Defined.

(** With the batch size 2 as a number the six jobs take four iterations;
    with the string of the digit 2 the second range runs from rank 1 to
    rank 11, and the run takes three. *)
Example string_batch_size_widens_the_range :
  last_rank 1 (Num 2) = 2
  /\ last_rank 1 (Str (Decimal.D2 Decimal.Nil)) = 11
  /\ (iterations ∘ counters ∘ fst
      <$> execute CleanupScenario.queue_answers 30 100 true 7 (Num 2)
            CleanupScenario.six_jobs) = Some 4%nat
  /\ (iterations ∘ counters ∘ fst
      <$> execute CleanupScenario.queue_answers 30 100 true 7
            (Str (Decimal.D2 Decimal.Nil)) CleanupScenario.six_jobs)
     = Some 3%nat.
Proof. vm_compute. done. Qed.

(** * Further properties: validation of status ranges *)

Import AspectUtils.

Lemma of_nat_is_2 (n : nat) : strict_ne_2 (of_nat n) = negb (Nat.eqb n 2).
Proof.
  unfold of_nat, strict_ne_2. f_equal.
  destruct (Nat.eqb_spec n 2) as [-> | Hne]; [done |].
  apply not_true_is_false. intros H. apply Qeq_bool_iff in H.
  unfold Qeq in H. simpl in H. lia.
Qed.

Lemma validateStatusRange_VArr (gt : value -> value -> bool) (l : list value) :
  validateStatusRange gt (VArr l)
  = match l with
    | VNum a :: VNum b :: nil =>
        if num_gt a b then Throws InvalidRangeValuesError else Returns
    | _ :: _ :: nil => Throws InvalidRangeValuesError
    | _ => Throws InvalidRangeSizeError
    end.
Proof.
  unfold validateStatusRange, arrayHasTwoElements. cbn [truthy get_length andb].
  rewrite of_nat_is_2.
  destruct l as [| v0 [| v1 [| v2 l]]];
    [ reflexivity
    | destruct v0; reflexivity
    | destruct v0, v1; reflexivity
    | destruct v0, v1; reflexivity ].
Qed.

(** X14: an array is accepted exactly when it holds two numbers of which
    the first is not greater than the second, and it is rejected with the
    size error exactly when its length is not 2. *)
Theorem validateStatusRange_accepts_ordered_pairs
    (gt : value -> value -> bool) (l : list value) :
  (validateStatusRange gt (VArr l) = Returns
   <-> exists a b, l = [VNum a; VNum b] /\ num_gt a b = false)
  /\ (validateStatusRange gt (VArr l) = Throws InvalidRangeSizeError
      <-> length l <> 2%nat).
Proof.
  rewrite validateStatusRange_VArr. split; split.
  - intros H.
    destruct l as [| v0 [| v1 [| v2 l]]];
      [ done | by destruct v0 | | by destruct v0, v1 ].
    destruct v0 as [| | | a | | |]; try done.
    destruct v1 as [| | | b | | |]; try done.
    destruct (num_gt a b) eqn:Hgt; [done |]. by exists a, b.
  - intros (a & b & -> & Hgt). by rewrite Hgt.
  - intros H Hlen.
    destruct l as [| v0 [| v1 [| v2 l]]]; try done.
    destruct v0 as [| | | a | | |]; try done.
    destruct v1 as [| | | b | | |]; try done.
    by destruct (num_gt a b).
  - intros H.
    destruct l as [| v0 [| v1 [| v2 l]]];
      [ done | by destruct v0 | done | by destruct v0, v1 ].
Qed.

(** X15: for finite numbers the range is accepted exactly when the first
    bound is at most the second. *)
Theorem validateStatusRange_finite (gt : value -> value -> bool) (x y : Q) :
  validateStatusRange gt (VArr [VNum (Finite x); VNum (Finite y)]) = Returns
  <-> (x <= y)%Q.
Proof.
  rewrite validateStatusRange_VArr. cbn [num_gt].
  destruct (Qle_bool x y) eqn:Hle; simpl.
  - split; [intros _; by apply Qle_bool_iff | done].
  - split; [done |]. intros H. apply Qle_bool_iff in H. congruence.
Qed.

(** X16: a range with a bound that is [NaN] is accepted, whatever the
    other bound is: the ordering check throws only when the comparison is
    true. *)
Theorem validateStatusRange_NaN (gt : value -> value -> bool) (n : number) :
  validateStatusRange gt (VArr [VNum NaN; VNum n]) = Returns
  /\ validateStatusRange gt (VArr [VNum n; VNum NaN]) = Returns.
Proof.
  rewrite !validateStatusRange_VArr. split; [done |]. by destruct n as [| [] |].
Qed.

(** X17: values that are not arrays: [null] and [undefined] pass the size
    check and make the next check fail with a [TypeError]; a boolean or a
    number is rejected with a range error, the size error if it is truthy
    and the values error if it is falsy. *)
Theorem validateStatusRange_on_scalars (gt : value -> value -> bool) :
  validateStatusRange gt VNull = Throws TypeError
  /\ validateStatusRange gt VUndefined = Throws TypeError
  /\ (forall b, validateStatusRange gt (VBool b)
        = Throws (if b then InvalidRangeSizeError else InvalidRangeValuesError))
  /\ (forall n, validateStatusRange gt (VNum n)
        = Throws (if truthy (VNum n) then InvalidRangeSizeError
                  else InvalidRangeValuesError)).
Proof.
  repeat split; try done.
  - by intros [].
  - intros n. unfold validateStatusRange, arrayHasTwoElements.
    cbn [get_length strict_ne_2 andb]. rewrite andb_true_r.
    by destruct (truthy (VNum n)).
Qed.

(** X18: the validation never asks whether the value itself is an array:
    an object with [length] 2 and numeric properties [0] and [1] in order
    is accepted, and a string is always rejected (with the size error
    unless it is empty or has two code units). *)
Theorem validateStatusRange_array_likes (gt : value -> value -> bool) :
  (forall a b, num_gt a b = false ->
     validateStatusRange gt
       (VObj [("length", of_nat 2); ("0", VNum a); ("1", VNum b)]) = Returns)
  /\ (forall units,
        validateStatusRange gt (VStr units)
        = Throws (match units with
                  | [] | [_; _] => InvalidRangeValuesError
                  | _ => InvalidRangeSizeError
                  end)).
Proof.
  split.
  - intros a b Hgt. unfold validateStatusRange, arrayHasTwoElements.
    cbn. by rewrite Hgt.
  - intros units. unfold validateStatusRange, arrayHasTwoElements.
    cbn [truthy get_length]. rewrite of_nat_is_2.
    destruct units as [| u0 [| u1 [| u2 units]]]; reflexivity.
Qed.

(** X19: the ordering check is reached with two numbers only: the result
    of [validateStatusRange] does not depend on how [>] treats operands
    that are not both numbers. *)
Theorem ordering_check_only_compares_numbers
    (gt1 gt2 : value -> value -> bool) (arr : value) :
  validateStatusRange gt1 arr = validateStatusRange gt2 arr.
Proof.
  unfold validateStatusRange, noNestedArrays, valuesAreNumeric,
    arrayValuesAscend.
  destruct (arrayHasTwoElements arr); [| done]. cbn [and_then].
  destruct (get_index arr 0) as [a0 |]; [| done].
  destruct (get_index arr 1) as [a1 |]; [| done].
  destruct a0, a1; reflexivity.
Qed.
